(** * A ray tracer: geometry, materials, camera and colour output

    A shallow embedding of the renderer's headers: [interval], [hit_record]
    and [hittable], [sphere], [hittable_list], [material] with its three
    variants, [color] output and [camera].

    Numbers.  A C++ [double] is modelled by a real number of the Standard
    Library ([R]): comparisons are the decidable order of [R], [std::sqrt]
    is [sqrt], [std::fmin]/[std::fmax] are [Rmin]/[Rmax].  Rounding, NaN,
    signed zeros and infinities are outside the model; so is division by
    zero, where a [double] is infinite or NaN and a real quotient is 0: the
    properties that divide assume the divisor is not zero.  An [int] is a
    [Z]; the conversion [int(x)] truncates toward zero when the result is an
    [int], and is left to the platform otherwise.

    Out-parameters.  A method that fills a reference argument ([hit_record&],
    [color&], [ray&]) takes the argument's value on entry and returns its
    value on exit next to the method's result.

    Randomness.  The process-wide generator is a state that every sampling
    helper takes and returns. *)

From Stdlib Require Import Reals Lra Lia ZArith List Bool.
Import ListNotations.

Open Scope R_scope.

(** ** Comparisons and conversions of [double] *)

(** [x < y] as a C++ condition. *)
Definition Rltb (x y : R) : bool := if Rlt_dec x y then true else false.

(** [x <= y] as a C++ condition. *)
Definition Rleb (x y : R) : bool := if Rle_dec x y then true else false.

Infix "<?" := Rltb (at level 70, no associativity) : R_scope.
Infix "<=?" := Rleb (at level 70, no associativity) : R_scope.
Notation "x >? y" := (Rltb y x) (at level 70, no associativity) : R_scope.

(** [int(x)] for a [double] [x]: the fractional part is dropped. *)
Definition double_to_int (v : R) : Z :=
  if 0 <=? v then Int_part v else (- Int_part (- v))%Z.

(** The values of an [int] (32 bits). *)
Definition INT_MIN : Z := (-2147483648)%Z.
Definition INT_MAX : Z := 2147483647%Z.

(** C++ leaves [int(x)] undefined when the truncated value is not an [int].
    What is stored then depends on the platform and is a parameter of the
    model (x86-64 stores [INT_MIN]). *)
Class int_conversion : Type := {
  unrepresentable_int : R -> Z
}.

(** [int(x)] where the value of [x] is not known to fit. *)
Definition int_of_double `{int_conversion} (v : R) : Z :=
  let n := double_to_int v in
  if ((INT_MIN <=? n) && (n <=? INT_MAX))%Z then n else unrepresentable_int v.

(** The implicit conversion of an [int] to [double]. *)
Definition int_to_double (n : Z) : R := IZR n.

(** ** vec3.h *)

Record vec3 : Type := mk_vec3 { x : R; y : R; z : R }.

Definition point3 : Type := vec3.

Declare Scope vec3_scope.
Delimit Scope vec3_scope with vec3.
Bind Scope vec3_scope with vec3.

(** Modelled from the spec: vec3.h is not among the sources; the spec
    describes a three-component real vector with the usual arithmetic,
    [dot], [cross], [length], normalisation and [reflect]. *)
Definition vec3_add (u v : vec3) : vec3 :=
  mk_vec3 (x u + x v) (y u + y v) (z u + z v).

(** Modelled from the spec: vec3.h is not among the sources; componentwise
    difference. *)
Definition vec3_sub (u v : vec3) : vec3 :=
  mk_vec3 (x u - x v) (y u - y v) (z u - z v).

(** Modelled from the spec: vec3.h is not among the sources; unary minus. *)
Definition vec3_neg (v : vec3) : vec3 :=
  mk_vec3 (- x v) (- y v) (- z v).

(** Modelled from the spec: vec3.h is not among the sources; [k * v] and
    [v * k] for a scalar [k]. *)
Definition vec3_scale (k : R) (v : vec3) : vec3 :=
  mk_vec3 (k * x v) (k * y v) (k * z v).

(** Modelled from the spec: vec3.h is not among the sources; the elementwise
    product of two colours. *)
Definition vec3_mul (u v : vec3) : vec3 :=
  mk_vec3 (x u * x v) (y u * y v) (z u * z v).

(** Modelled from the spec: vec3.h is not among the sources; [v / k] for a
    scalar [k]. *)
Definition vec3_div (v : vec3) (k : R) : vec3 :=
  mk_vec3 (x v / k) (y v / k) (z v / k).

Infix "+" := vec3_add : vec3_scope.
Infix "-" := vec3_sub : vec3_scope.
Notation "- v" := (vec3_neg v) : vec3_scope.
Infix "*" := vec3_mul : vec3_scope.
Infix "*:" := vec3_scale (at level 40, left associativity) : vec3_scope.
Infix "/:" := vec3_div (at level 40, left associativity) : vec3_scope.

(** Modelled from the spec: vec3.h is not among the sources. *)
Definition dot (u v : vec3) : R :=
  x u * x v + y u * y v + z u * z v.

(** Modelled from the spec: vec3.h is not among the sources. *)
Definition cross (u v : vec3) : vec3 :=
  mk_vec3 (y u * z v - z u * y v)
          (z u * x v - x u * z v)
          (x u * y v - y u * x v).

(** Modelled from the spec: vec3.h is not among the sources. *)
Definition length_squared (v : vec3) : R :=
  x v * x v + y v * y v + z v * z v.

(** Modelled from the spec: vec3.h is not among the sources. *)
Definition length (v : vec3) : R := sqrt (length_squared v).

(** Modelled from the spec: vec3.h is not among the sources; normalisation.
    It models the code for a vector that is not zero: the code divides the
    zero vector by 0 and gets NaN components, which a real number does not
    represent. *)
Definition unit_vector (v : vec3) : vec3 := (v /: length v)%vec3.

(** Modelled from the spec: vec3.h is not among the sources; the spec gives
    the mirror direction as [d - 2 dot(d,n) n]. *)
Definition reflect (v n : vec3) : vec3 :=
  (v - (2 * dot v n) *: n)%vec3.

(** ** interval.h *)

Record interval : Type := mk_interval { min : R; max : R }.

Definition size (i : interval) : R := max i - min i.

Definition contains (i : interval) (v : R) : bool :=
  (min i <=? v) && (v <=? max i).

Definition surrounds (i : interval) (v : R) : bool :=
  (min i <? v) && (v <? max i).

Definition clamp (i : interval) (v : R) : R :=
  if v <? min i then min i
  else if v >? max i then max i
  else v.

(** ** ray.h *)

(** Modelled from the spec: ray.h is not among the sources; a ray is an
    origin and a direction. *)
Record ray : Type := mk_ray { origin : point3; direction : vec3 }.

(** Modelled from the spec: ray.h is not among the sources;
    [at(t) = origin + t * direction] ([at] is a keyword here, hence the
    underscore). *)
Definition at_ (r : ray) (k : R) : point3 :=
  (origin r + k *: direction r)%vec3.

(** ** color.h *)

Definition color : Type := vec3.

Definition linear_to_gamma (linear_component : R) : R :=
  if linear_component >? 0 then sqrt linear_component else 0.

(** The interval [intensity] of [write_color]. *)
Definition intensity : interval := mk_interval 0.000 0.999.

(** [write_color]: the three integers sent to the stream, in the order
    written.  The products converted to [int] lie between 0 and 255.744, so
    the conversion is the truncation. *)
Definition write_color (pixel_color : color) : Z * Z * Z :=
  let r := x pixel_color in
  let g := y pixel_color in
  let b := z pixel_color in
  let r := linear_to_gamma r in
  let g := linear_to_gamma g in
  let b := linear_to_gamma b in
  let rbyte := double_to_int (256 * clamp intensity r) in
  let gbyte := double_to_int (256 * clamp intensity g) in
  let bbyte := double_to_int (256 * clamp intensity b) in
  (rbyte, gbyte, bbyte).

(** ** material.h: the data of the material classes *)

(** The base class [material] has no data member. *)
Record lambertian : Type := mk_lambertian { lambertian_albedo : color }.

Record metal : Type := mk_metal { metal_albedo : color; fuzz : R }.

Record dielectric : Type := mk_dielectric { refraction_index : R }.

(** The constructor [lambertian(albedo)]. *)
Definition lambertian_ctor (albedo : color) : lambertian :=
  mk_lambertian albedo.

(** The constructor [metal(albedo, fuzz)]. *)
Definition metal_ctor (albedo : color) (fuzz : R) : metal :=
  mk_metal albedo (if fuzz <? 1 then fuzz else 1).

(** The constructor [dielectric(refraction_index)]. *)
Definition dielectric_ctor (refraction_index : R) : dielectric :=
  mk_dielectric refraction_index.

(** An object behind a [shared_ptr<material>]: the base class or one of the
    three classes derived from it. *)
Inductive material : Type :=
| Material
| Lambertian (m : lambertian)
| Metal (m : metal)
| Dielectric (m : dielectric).

(** ** hittable.h *)

(** [mat] is a shared pointer: [None] is the null pointer. *)
Record hit_record : Type := mk_hit_record {
  p : point3;
  normal : vec3;
  mat : option material;
  t : R;
  front_face : bool
}.

(** A [hit_record] that has just been declared: the vectors are zero and the
    pointer is null.  C++ leaves [t] and [front_face] indeterminate; every
    path that reports a hit writes them before anything reads them (see
    [hittable_hit_overwrites]). *)
Definition hit_record_default : hit_record :=
  mk_hit_record (mk_vec3 0 0 0) (mk_vec3 0 0 0) None 0 false.

(** The assignments [rec.t = v], [rec.p = v] and [rec.mat = m] (a copy of
    the pointer [m], null or not). *)
Definition set_t (rec : hit_record) (v : R) : hit_record :=
  mk_hit_record (p rec) (normal rec) (mat rec) v (front_face rec).

Definition set_p (rec : hit_record) (v : point3) : hit_record :=
  mk_hit_record v (normal rec) (mat rec) (t rec) (front_face rec).

Definition set_mat (rec : hit_record) (m : option material) : hit_record :=
  mk_hit_record (p rec) (normal rec) m (t rec) (front_face rec).

Definition set_face_normal (rec : hit_record) (r : ray) (outward_normal : vec3)
  : hit_record :=
  let front_face := dot (direction r) outward_normal <? 0 in
  let normal := if front_face then outward_normal else (- outward_normal)%vec3 in
  mk_hit_record (p rec) normal (mat rec) (t rec) front_face.

(** ** sphere.h *)

(** [mat] is the member [shared_ptr<material> mat]: [None] is the null
    pointer, which the constructor accepts. *)
Record sphere : Type := mk_sphere {
  center : point3;
  radius : R;
  sphere_mat : option material
}.

(** The constructor [sphere(center, radius, mat)]. *)
Definition sphere_ctor (center : point3) (radius : R) (mat : option material)
  : sphere :=
  mk_sphere center (Rmax 0 radius) mat.

(** The last block of [sphere::hit], "record the hit information", which
    both accepted roots reach.  The normal models the code for a radius
    that is not zero: for the radius 0 the code divides by 0 and stores NaN
    components. *)
Definition sphere_record_hit (s : sphere) (r : ray) (root : R) (rec : hit_record)
  : hit_record :=
  let rec := set_t rec root in
  let rec := set_p rec (at_ r (t rec)) in
  let outward_normal := ((p rec - center s) /: radius s)%vec3 in
  let rec := set_face_normal rec r outward_normal in
  set_mat rec (sphere_mat s).

(** [sphere::hit]: the result and the record [rec] as the call leaves it.
    The roots model the code for a direction that is not zero ([a <> 0]):
    for the zero direction the code's roots are NaN and it returns false. *)
Definition sphere_hit (s : sphere) (r : ray) (ray_t : interval) (rec : hit_record)
  : bool * hit_record :=
  let oc := (center s - origin r)%vec3 in
  let a := length_squared (direction r) in
  let h := dot (direction r) oc in
  let c := length_squared oc - radius s * radius s in
  let discriminant := h * h - a * c in
  if discriminant <? 0 then (false, rec)
  else
    let sqrtd := sqrt discriminant in
    let root := (h - sqrtd) / a in
    if negb (contains ray_t root) then
      let root := (h + sqrtd) / a in
      if negb (contains ray_t root) then (false, rec)
      else (true, sphere_record_hit s r root rec)
    else (true, sphere_record_hit s r root rec).

(** ** hittable_list.h *)

(** The variables of the loop of [hittable_list::hit]. *)
Record hit_loop : Type := mk_hit_loop {
  temp_rec : hit_record;
  hit_anything : bool;
  closest_so_far : R;
  loop_rec : hit_record
}.

Section hittable_list_loop.
Context {object_t : Type}.
(** The virtual call [object->hit(r, ray_t, rec)]. *)
Variable object_hit : object_t -> ray -> interval -> hit_record -> bool * hit_record.

(** One iteration of the loop over [objects]. *)
Definition hit_loop_body (r : ray) (ray_t : interval) (st : hit_loop)
           (object : object_t) : hit_loop :=
  let (hit, temp_rec) :=
    object_hit object r (mk_interval (min ray_t) (closest_so_far st)) (temp_rec st) in
  if hit then mk_hit_loop temp_rec true (t temp_rec) temp_rec
  else mk_hit_loop temp_rec (hit_anything st) (closest_so_far st) (loop_rec st).

(** [hittable_list::hit] over the members [objects]. *)
Definition hittable_list_hit_with (objects : list object_t) (r : ray)
           (ray_t : interval) (rec : hit_record) : bool * hit_record :=
  let st :=
    fold_left (hit_loop_body r ray_t) objects
              (mk_hit_loop hit_record_default false (max ray_t) rec) in
  (hit_anything st, loop_rec st).
End hittable_list_loop.

(** The classes derived from [hittable]: a sphere, or a list of shared
    pointers to hittables.  A list holds its members themselves: the
    pointers of a scene are taken not to be null. *)
#[local] Unset Elimination Schemes.
Inductive hittable : Type :=
| Sphere (s : sphere)
| HittableList (objects : list hittable).
#[local] Set Elimination Schemes.

(** The virtual method [hittable::hit]. *)
Fixpoint hittable_hit (world : hittable) (r : ray) (ray_t : interval)
         (rec : hit_record) {struct world} : bool * hit_record :=
  match world with
  | Sphere s => sphere_hit s r ray_t rec
  | HittableList objects => hittable_list_hit_with hittable_hit objects r ray_t rec
  end.

(** [hittable_list::clear] and [hittable_list::add] ([push_back]). *)
Definition hittable_list_clear (objects : list hittable) : list hittable := [].

Definition hittable_list_add (objects : list hittable) (object : hittable)
  : list hittable :=
  objects ++ [object].

(** [hittable_list::hit]. *)
Definition hittable_list_hit (objects : list hittable) (r : ray) (ray_t : interval)
           (rec : hit_record) : bool * hit_record :=
  hittable_list_hit_with hittable_hit objects r ray_t rec.

(** ** Helpers declared in headers that are not among the sources *)

(** The helper header and vec3.h are not among the sources.  Their random
    sampling ([random_double], [random_unit_vector]), the tolerance test
    [near_zero], [refract], the constant [infinity] and [degrees_to_radians]
    are parameters of the model.  [rng] is the state of the process-wide
    random generator: a sampling helper takes the state and returns the sample
    with the state that follows. *)
Class helpers : Type := {
  rng : Type;
  random_double : rng -> R * rng;
  random_unit_vector : rng -> vec3 * rng;
  near_zero : vec3 -> bool;
  refract : vec3 -> vec3 -> R -> vec3;
  infinity : R;
  degrees_to_radians : R -> R
}.

(** [interval::empty], which is also what the default constructor builds,
    and [interval::universe]. *)
Definition interval_empty `{helpers} : interval := mk_interval infinity (- infinity).
Definition interval_universe `{helpers} : interval :=
  mk_interval (- infinity) infinity.

(** A [vec3] and a [ray] that have just been declared, before any
    assignment. *)
Definition vec3_default : vec3 := mk_vec3 0 0 0.
Definition ray_default : ray := mk_ray vec3_default vec3_default.

(** ** material.h: scattering *)

Section material_scatter.
Context `{helpers}.

(** What a call of [scatter] leaves behind: the value it returns, the
    out-parameters [attenuation] and [scattered], and the generator's
    state. *)
Record scatter_result : Type := mk_scatter_result {
  scatter_returns : bool;
  scatter_attenuation : color;
  scatter_scattered : ray;
  scatter_rng : rng
}.

(** [material::scatter], the base class. *)
Definition material_scatter (r_in : ray) (rec : hit_record)
           (attenuation : color) (scattered : ray) (g : rng) : scatter_result :=
  mk_scatter_result false attenuation scattered g.

(** [lambertian::scatter]. *)
Definition lambertian_scatter (self : lambertian) (r_in : ray) (rec : hit_record)
           (attenuation : color) (scattered : ray) (g : rng) : scatter_result :=
  let (sample, g) := random_unit_vector g in
  let scatter_direction := (normal rec + sample)%vec3 in
  let scatter_direction :=
    if near_zero scatter_direction then normal rec else scatter_direction in
  let scattered := mk_ray (p rec) scatter_direction in
  let attenuation := lambertian_albedo self in
  mk_scatter_result true attenuation scattered g.

(** [metal::scatter]. *)
Definition metal_scatter (self : metal) (r_in : ray) (rec : hit_record)
           (attenuation : color) (scattered : ray) (g : rng) : scatter_result :=
  let reflected := reflect (direction r_in) (normal rec) in
  let (sample, g) := random_unit_vector g in
  let reflected := (unit_vector reflected + fuzz self *: sample)%vec3 in
  let scattered := mk_ray (p rec) reflected in
  let attenuation := metal_albedo self in
  mk_scatter_result (dot (direction scattered) (normal rec) >? 0)
                    attenuation scattered g.

(** [dielectric::reflectance], Schlick's approximation. *)
Definition reflectance (cosine refraction_index : R) : R :=
  let r0 := (1 - refraction_index) / (1 + refraction_index) in
  let r0 := r0 * r0 in
  r0 + (1 - r0) * (1 - cosine) ^ 5.

(** [dielectric::scatter].  The random draw is the right operand of [||]:
    it happens only when the left operand is false. *)
Definition dielectric_scatter (self : dielectric) (r_in : ray) (rec : hit_record)
           (attenuation : color) (scattered : ray) (g : rng) : scatter_result :=
  let attenuation := mk_vec3 1.0 1.0 1.0 in
  let ri := if front_face rec then 1.0 / refraction_index self
            else refraction_index self in
  let unit_direction := unit_vector (direction r_in) in
  let cos_theta := Rmin (dot (- unit_direction)%vec3 (normal rec)) 1.0 in
  let sin_theta := sqrt (1.0 - cos_theta * cos_theta) in
  let cannot_refract := ri * sin_theta >? 1.0 in
  let (reflects, g) :=
    if cannot_refract then (true, g)
    else let (sample, g) := random_double g in
         (reflectance cos_theta ri >? sample, g) in
  let direction :=
    if reflects then reflect unit_direction (normal rec)
    else refract unit_direction (normal rec) ri in
  let scattered := mk_ray (p rec) direction in
  mk_scatter_result true attenuation scattered g.

(** The virtual call [mat->scatter(r_in, rec, attenuation, scattered)]. *)
Definition scatter (m : material) (r_in : ray) (rec : hit_record)
           (attenuation : color) (scattered : ray) (g : rng) : scatter_result :=
  match m with
  | Material => material_scatter r_in rec attenuation scattered g
  | Lambertian self => lambertian_scatter self r_in rec attenuation scattered g
  | Metal self => metal_scatter self r_in rec attenuation scattered g
  | Dielectric self => dielectric_scatter self r_in rec attenuation scattered g
  end.
End material_scatter.

(** ** camera.h *)

(** [random_in_unit_disk] (vec3.h, not among the sources), which only the
    defocus disk uses: a point of the unit disk of the plane [z = 0]. *)
Class lens_helpers `{helpers} : Type := {
  random_in_unit_disk : rng -> vec3 * rng
}.

Module camera.

(** The public configuration and the private members that [initialize]
    derives from it. *)
Record t : Type := mk {
  aspect_ratio : R;
  image_width : Z;
  samples_per_pixel : Z;
  max_depth : Z;
  vfov : R;
  lookfrom : point3;
  lookat : point3;
  vup : vec3;
  defocus_angle : R;
  focus_dist : R;
  image_height : Z;
  pixel_samples_scale : R;
  center : point3;
  pixel00_loc : point3;
  pixel_delta_u : vec3;
  pixel_delta_v : vec3;
  u : vec3;
  v : vec3;
  w : vec3;
  defocus_disk_u : vec3;
  defocus_disk_v : vec3
}.

Section with_helpers.
Context `{H : helpers} `{C : int_conversion}.

(** [camera::initialize]: the camera with its private members set. *)
Definition initialize (self : t) : t :=
  let image_height :=
    int_of_double (int_to_double (image_width self) / aspect_ratio self) in
  let image_height := if (image_height <? 1)%Z then 1%Z else image_height in
  let pixel_samples_scale := 1.0 / int_to_double (samples_per_pixel self) in
  let center := lookfrom self in
  let theta := degrees_to_radians (vfov self) in
  let h := tan (theta / 2) in
  let viewport_height := 2 * h * focus_dist self in
  let viewport_width :=
    viewport_height
    * (int_to_double (image_width self) / int_to_double image_height) in
  let w := unit_vector (lookfrom self - lookat self) in
  let u := unit_vector (cross (vup self) w) in
  let v := cross w u in
  let viewport_u := (viewport_width *: u)%vec3 in
  let viewport_v := (viewport_height *: (- v))%vec3 in
  let pixel_delta_u := (viewport_u /: int_to_double (image_width self))%vec3 in
  let pixel_delta_v := (viewport_v /: int_to_double image_height)%vec3 in
  let viewport_upper_left :=
    (center - focus_dist self *: w - viewport_u /: 2 - viewport_v /: 2)%vec3 in
  let pixel00_loc :=
    (viewport_upper_left + 0.5 *: (pixel_delta_u + pixel_delta_v))%vec3 in
  let defocus_radius :=
    focus_dist self * tan (degrees_to_radians (defocus_angle self / 2)) in
  let defocus_disk_u := (defocus_radius *: u)%vec3 in
  let defocus_disk_v := (defocus_radius *: v)%vec3 in
  mk (aspect_ratio self) (image_width self) (samples_per_pixel self)
     (max_depth self) (vfov self) (lookfrom self) (lookat self) (vup self)
     (defocus_angle self) (focus_dist self)
     image_height pixel_samples_scale center pixel00_loc
     pixel_delta_u pixel_delta_v u v w defocus_disk_u defocus_disk_v.

(** [camera::ray_color] for a positive [depth], counted by [bounces]: the
    colour with the generator's state, or [None] when the hit record's
    material pointer is null at [rec.mat->scatter]. *)
Fixpoint ray_color_bounces (bounces : nat) (r : ray) (world : hittable) (g : rng)
  : option (color * rng) :=
  match bounces with
  | O => Some (mk_vec3 0 0 0, g)
  | S bounces =>
    let rec := hit_record_default in
    let (hit, rec) := hittable_hit world r (mk_interval 0.0001 infinity) rec in
    if hit then
      let scattered := ray_default in
      let attenuation := vec3_default in
      match mat rec with
      | None => None
      | Some m =>
        let res := scatter m r rec attenuation scattered g in
        let attenuation := scatter_attenuation res in
        let scattered := scatter_scattered res in
        let g := scatter_rng res in
        if scatter_returns res then
          match ray_color_bounces bounces scattered world g with
          | Some (c, g) => Some ((attenuation * c)%vec3, g)
          | None => None
          end
        else Some (mk_vec3 0 0 0, g)
      end
    else
      let unit_direction := unit_vector (direction r) in
      let a := 0.5 * (y unit_direction + 1.0) in
      Some (((1.0 - a) *: mk_vec3 1.0 1.0 1.0 + a *: mk_vec3 0.5 0.7 1.0)%vec3, g)
  end.

(** [camera::ray_color].  [depth <= 0] returns black at once; a positive
    [depth] falls by one at each recursive call, so [Z.to_nat depth]
    counts the calls that remain. *)
Definition ray_color (r : ray) (depth : Z) (world : hittable) (g : rng)
  : option (color * rng) :=
  if (depth <=? 0)%Z then Some (mk_vec3 0 0 0, g)
  else ray_color_bounces (Z.to_nat depth) r world g.
End with_helpers.



Section with_lens.
Context `{H : helpers} `{C : int_conversion} `{L : @lens_helpers H}.

(** [camera::sample_square].  The two draws are written here in the order
    of the arguments. *)
Definition sample_square (self : t) (g : rng) : vec3 * rng :=
  let (a, g) := random_double g in
  let (b, g) := random_double g in
  (mk_vec3 (a - 0.5) (b - 0.5) 0, g).

(** [camera::defocus_disk_sample]. *)
Definition defocus_disk_sample (self : t) (g : rng) : point3 * rng :=
  let (p, g) := random_in_unit_disk g in
  ((center self + x p *: defocus_disk_u self + y p *: defocus_disk_v self)%vec3, g).

(** [camera::get_ray]. *)
Definition get_ray (self : t) (i j : Z) (g : rng) : ray * rng :=
  let (offset, g) := sample_square self g in
  let pixel_sample :=
    (pixel00_loc self
     + (int_to_double i + x offset) *: pixel_delta_u self
     + (int_to_double j + y offset) *: pixel_delta_v self)%vec3 in
  let (ray_origin, g) :=
    if defocus_angle self <=? 0 then (center self, g)
    else defocus_disk_sample self g in
  let ray_direction := (pixel_sample - ray_origin)%vec3 in
  (mk_ray ray_origin ray_direction, g).



End with_lens.

End camera.

(** The material pointers of the spheres of a scene, in the order of the
    scene. *)
Fixpoint materials_of (world : hittable) : list (option material) :=
  match world with
  | Sphere s => [sphere_mat s]
  | HittableList objects => flat_map materials_of objects
  end.

(** * Descriptions and examples for the properties *)

(** ** The induction principle of [hittable] *)

(** A property holds of every hittable when it holds of the spheres and
    passes from the members of a list to the list. *)
Fixpoint hittable_ind (P : hittable -> Prop)
         (Hsphere : forall s, P (Sphere s))
         (Hlist : forall objects, Forall P objects -> P (HittableList objects))
         (world : hittable) {struct world} : P world :=
  match world with
  | Sphere s => Hsphere s
  | HittableList objects =>
    Hlist objects
      ((fix members (l : list hittable) : Forall P l :=
          match l with
          | [] => Forall_nil P
          | o :: l' => Forall_cons o (hittable_ind P Hsphere Hlist o) (members l')
          end) objects)
  end.

(** The channel conversion in the words of the interface description: gamma
    correction [sqrt v] when [v > 0] and [0] otherwise, clamped to
    [[0, 0.999]], times 256, truncated. *)
Definition gamma_spec (v : R) : R :=
  if Rlt_dec 0 v then sqrt v else 0.

Definition channel_byte_spec (v : R) : Z :=
  double_to_int (256 * Rmax 0 (Rmin (gamma_spec v) 0.999)).

(** The sphere of the worked example: centre (0,0,-1), radius 0.5. *)
Definition example_sphere (m : material) : sphere :=
  sphere_ctor (mk_vec3 0 0 (-1)) 0.5 (Some m).

(** The ray of the worked example: from the origin along -z. *)
Definition example_ray : ray := mk_ray (mk_vec3 0 0 0) (mk_vec3 0 0 (-1)).

(** The sphere of the worked example, built with a null material pointer. *)
Definition example_null_sphere : sphere :=
  sphere_ctor (mk_vec3 0 0 (-1)) 0.5 None.

(** The record the worked example leaves. *)
Definition example_hit (m : material) : hit_record :=
  mk_hit_record (mk_vec3 0 0 (-0.5)) (mk_vec3 0 0 1) (Some m) 0.5 true.

(** The reading of the tie rule that gives the record to the member tested
    first: two members that report the same [t] to the caller's interval,
    tested in the order [first], [second]. *)
Definition first_tested_wins (first second : hittable) (r : ray)
           (ray_t : interval) (rec : hit_record) : Prop :=
  forall rec1 rec2,
    hittable_hit first r ray_t rec = (true, rec1) ->
    hittable_hit second r ray_t rec = (true, rec2) ->
    t rec1 = t rec2 ->
    hittable_list_hit [first; second] r ray_t rec = (true, rec1).

(** A choice of the helpers to run the model on: the generator has one
    state, every draw is 0.5 and every sampled unit vector is (1,0,0); a
    vector is near zero when each component is below 0.00000001 in absolute
    value; [refract] is not exercised and returns its first argument. *)
Definition example_near_zero (v : vec3) : bool :=
  (Rabs (x v) <? 0.00000001) && (Rabs (y v) <? 0.00000001)
  && (Rabs (z v) <? 0.00000001).

Definition example_helpers : helpers := {|
  rng := unit;
  random_double := fun g => (0.5, g);
  random_unit_vector := fun g => (mk_vec3 1 0 0, g);
  near_zero := example_near_zero;
  refract := fun uv n etai_over_etat => uv;
  infinity := 1000000;
  degrees_to_radians := fun degrees => degrees * PI / 180
|}.

(** The background gradient in the words of the description: the blend
    [(1 - a) white + a (0.5, 0.7, 1.0)] with [a] half of the vertical
    component of the normalised direction plus one. *)
Definition background_gradient (r : ray) : color :=
  let a := 0.5 * (y (unit_vector (direction r)) + 1) in
  ((1 - a) *: mk_vec3 1 1 1 + a *: mk_vec3 0.5 0.7 1)%vec3.

(** A platform that stores [INT_MIN] for a value that is not an [int]. *)
Definition example_int_conversion : int_conversion := {|
  unrepresentable_int := fun _ => INT_MIN
|}.

(** The default configuration: width 100, aspect ratio 1, 10 samples per
    pixel. *)
Definition example_camera : camera.t :=
  camera.mk 1.0 100 10 10 90 (mk_vec3 0 0 0) (mk_vec3 0 0 (-1)) (mk_vec3 0 1 0)
            0 10
            0 0 vec3_default vec3_default vec3_default vec3_default
            vec3_default vec3_default vec3_default vec3_default vec3_default.

(** The default configuration with the aspect ratio 1e-10: the quotient
    [image_width / aspect_ratio] is 10^12, which is not an [int]. *)
Definition example_narrow_camera : camera.t :=
  camera.mk (1 / 10000000000) 100 10 10 90 (mk_vec3 0 0 0) (mk_vec3 0 0 (-1))
            (mk_vec3 0 1 0) 0 10
            0 0 vec3_default vec3_default vec3_default vec3_default
            vec3_default vec3_default vec3_default vec3_default vec3_default.

(** * Properties *)

(** ** Conditions on [double] as propositions *)

Lemma Rltb_true (a b : R) : (a <? b) = true <-> a < b.
Proof. unfold Rltb. destruct (Rlt_dec a b); split; intros; (easy || lra). Qed.

Lemma Rltb_false (a b : R) : (a <? b) = false <-> b <= a.
Proof. unfold Rltb. destruct (Rlt_dec a b); split; intros; (easy || lra). Qed.

Lemma Rleb_true (a b : R) : (a <=? b) = true <-> a <= b.
Proof. unfold Rleb. destruct (Rle_dec a b); split; intros; (easy || lra). Qed.

Lemma Rleb_false (a b : R) : (a <=? b) = false <-> b < a.
Proof. unfold Rleb. destruct (Rle_dec a b); split; intros; (easy || lra). Qed.

Lemma contains_true (i : interval) (v : R) :
  contains i v = true <-> min i <= v <= max i.
Proof.
  unfold contains. rewrite andb_true_iff, !Rleb_true. tauto.
Qed.

Lemma contains_false (i : interval) (v : R) :
  contains i v = false <-> v < min i \/ max i < v.
Proof.
  unfold contains. rewrite andb_false_iff, !Rleb_false. tauto.
Qed.

(** Turns the conditions of a goal or of the context into propositions. *)
Ltac conditions :=
  repeat match goal with
  | H : (_ <? _) = true |- _ => apply Rltb_true in H
  | H : (_ <? _) = false |- _ => apply Rltb_false in H
  | H : (_ <=? _) = true |- _ => apply Rleb_true in H
  | H : (_ <=? _) = false |- _ => apply Rleb_false in H
  | H : contains _ _ = true |- _ => apply contains_true in H
  | H : contains _ _ = false |- _ => apply contains_false in H
  | |- (_ <? _) = true => apply Rltb_true
  | |- (_ <? _) = false => apply Rltb_false
  | |- (_ <=? _) = true => apply Rleb_true
  | |- (_ <=? _) = false => apply Rleb_false
  | |- contains _ _ = true => apply contains_true
  | |- contains _ _ = false => apply contains_false
  end.

(** [int(v)] is the integer [n] when [n <= v < n + 1] and [v] is not
    negative. *)
Lemma double_to_int_floor (v : R) (n : Z) :
  0 <= v -> IZR n <= v < IZR n + 1 -> double_to_int v = n.
Proof.
  intros Hv [Hlo Hhi]. unfold double_to_int.
  replace (0 <=? v) with true by (symmetry; conditions; exact Hv).
  symmetry. apply Int_part_spec. lra.
Qed.

Lemma double_to_int_nonneg (v : R) : 0 <= v -> (0 <= double_to_int v)%Z.
Proof.
  intros Hv. unfold double_to_int.
  replace (0 <=? v) with true by (symmetry; conditions; exact Hv).
  destruct (base_Int_part v) as [_ Hup].
  apply Z.lt_succ_r, lt_IZR. rewrite succ_IZR. lra.
Qed.

Lemma double_to_int_below (v : R) (n : Z) :
  0 <= v -> v < IZR n -> (double_to_int v < n)%Z.
Proof.
  intros Hv Hn. unfold double_to_int.
  replace (0 <=? v) with true by (symmetry; conditions; exact Hv).
  destruct (base_Int_part v) as [Hlo _].
  apply lt_IZR. lra.
Qed.

(** ** color.h: the bytes that [write_color] emits *)

Lemma linear_to_gamma_spec (v : R) : linear_to_gamma v = gamma_spec v.
Proof.
  unfold linear_to_gamma, gamma_spec, Rltb.
  destruct (Rlt_dec 0 v); reflexivity.
Qed.

Lemma clamp_intensity_min_max (v : R) :
  clamp intensity v = Rmax 0 (Rmin v 0.999).
Proof.
  unfold clamp, intensity; cbn [min max].
  destruct (v <? 0.000) eqn:Hlo; [| destruct (v >? 0.999) eqn:Hhi]; conditions.
  - rewrite Rmax_left; [lra |]. rewrite Rmin_left; lra.
  - rewrite Rmin_right by lra. rewrite Rmax_right; lra.
  - rewrite Rmin_left by lra. rewrite Rmax_right; lra.
Qed.

Lemma clamp_intensity_range (v : R) : 0 <= clamp intensity v <= 0.999.
Proof.
  unfold clamp, intensity; cbn [min max].
  destruct (v <? 0.000) eqn:Hlo; [| destruct (v >? 0.999) eqn:Hhi];
    conditions; lra.
Qed.

(** One channel of [write_color]. *)
Lemma channel_byte_range (v : R) :
  (0 <= double_to_int (256 * clamp intensity (linear_to_gamma v)) <= 255)%Z.
Proof.
  pose proof (clamp_intensity_range (linear_to_gamma v)) as [Hlo Hhi].
  split.
  - apply double_to_int_nonneg. lra.
  - apply Z.lt_succ_r. apply double_to_int_below; [lra |].
    change (Z.succ 255) with 256%Z. lra.
Qed.

Lemma channel_byte_saturates (v : R) :
  0.999 <= v -> double_to_int (256 * clamp intensity (linear_to_gamma v)) = 255%Z.
Proof.
  intros Hv.
  assert (Hg : 0.999 < linear_to_gamma v).
  { unfold linear_to_gamma.
    replace (v >? 0) with true by (symmetry; conditions; lra).
    rewrite <- (sqrt_square 0.999) at 1 by lra.
    apply sqrt_lt_1; lra. }
  unfold clamp, intensity; cbn [min max].
  replace (linear_to_gamma v <? 0.000) with false by (symmetry; conditions; lra).
  replace (linear_to_gamma v >? 0.999) with true by (symmetry; conditions; lra).
  apply double_to_int_floor; lra.
Qed.

Lemma channel_byte_zero :
  double_to_int (256 * clamp intensity (linear_to_gamma 0)) = 0%Z.
Proof.
  unfold linear_to_gamma.
  replace (0 >? 0) with false by (symmetry; conditions; lra).
  unfold clamp, intensity; cbn [min max].
  replace (0 <? 0.000) with false by (symmetry; conditions; lra).
  replace (0 >? 0.999) with false by (symmetry; conditions; lra).
  apply double_to_int_floor; lra.
Qed.

(** C4.  [write_color] converts each channel by the gamma correction
    ([sqrt v] when [v > 0], else [0]), the clamp to [[0, 0.999]], the product
    with 256 and the truncation; each emitted integer lies in [[0, 255]], so
    256 is never emitted; colour (1,1,1) gives (255,255,255), colour (0,0,0)
    gives (0,0,0), and a channel that is at least 0.999 gives 255. *)
Theorem write_color_bytes :
  (forall c : color,
      write_color c
      = (channel_byte_spec (x c), channel_byte_spec (y c), channel_byte_spec (z c)))
  /\ (forall c : color,
         let '(rbyte, gbyte, bbyte) := write_color c in
         (0 <= rbyte <= 255 /\ 0 <= gbyte <= 255 /\ 0 <= bbyte <= 255)%Z)
  /\ write_color (mk_vec3 1 1 1) = (255, 255, 255)%Z
  /\ write_color (mk_vec3 0 0 0) = (0, 0, 0)%Z
  /\ (forall c : color,
         (0.999 <= x c -> fst (fst (write_color c)) = 255%Z)
         /\ (0.999 <= y c -> snd (fst (write_color c)) = 255%Z)
         /\ (0.999 <= z c -> snd (write_color c) = 255%Z)).
Proof.
  split; [| split; [| split; [| split]]].
  - intros c. unfold write_color, channel_byte_spec.
    rewrite !clamp_intensity_min_max, !linear_to_gamma_spec. reflexivity.
  - intros c. unfold write_color.
    repeat split; apply channel_byte_range.
  - unfold write_color; cbn [x y z].
    rewrite !channel_byte_saturates by lra. reflexivity.
  - unfold write_color; cbn [x y z].
    rewrite !channel_byte_zero. reflexivity.
  - intros c. unfold write_color; cbn [fst snd].
    repeat split; intros Hc; apply channel_byte_saturates; exact Hc.
Qed.

(** A colour whose channels all exceed 0.999 is written as (255,255,255). *)
Lemma write_color_bytes_witness :
  write_color (mk_vec3 0.999 2 4) = (255, 255, 255)%Z.
Proof.
  destruct write_color_bytes as (_ & _ & _ & _ & Hsat).
  destruct (Hsat (mk_vec3 0.999 2 4)) as (Hr & Hg & Hb).
  cbn [x y z] in Hr, Hg, Hb.
  rewrite (surjective_pairing (write_color _)).
  rewrite (surjective_pairing (fst (write_color _))).
  rewrite Hr, Hg, Hb by lra. reflexivity.
Defined.

(** ** material.h: the constructor of [metal] *)

(** C10.  The constructor of [metal] clamps [fuzz] from above only: the
    stored value is the argument when the argument is below 1 and is 1
    otherwise; it never exceeds 1, and a negative argument is stored as it
    is. *)
Theorem metal_ctor_fuzz (albedo : color) (f : R) :
  (f < 1 -> fuzz (metal_ctor albedo f) = f)
  /\ (~ f < 1 -> fuzz (metal_ctor albedo f) = 1)
  /\ fuzz (metal_ctor albedo f) <= 1
  /\ (f < 0 -> fuzz (metal_ctor albedo f) = f /\ fuzz (metal_ctor albedo f) < 0).
Proof.
  unfold metal_ctor; cbn [fuzz].
  destruct (f <? 1) eqn:Hf; conditions; repeat split; intros; lra.
Qed.

(** The argument -3 is stored as -3. *)
Lemma metal_ctor_fuzz_witness :
  fuzz (metal_ctor (mk_vec3 0.8 0.8 0.8) (-3)) = -3
  /\ fuzz (metal_ctor (mk_vec3 0.8 0.8 0.8) (-3)) < 0.
Proof.
  apply (metal_ctor_fuzz (mk_vec3 0.8 0.8 0.8) (-3)). lra.
Defined.

(** ** sphere.h and hittable_list.h: what [hit] does to [rec] *)

Lemma sphere_hit_cases (s : sphere) (r : ray) (ray_t : interval) (rec : hit_record) :
  sphere_hit s r ray_t rec = (false, rec)
  \/ exists root, contains ray_t root = true
                  /\ sphere_hit s r ray_t rec = (true, sphere_record_hit s r root rec).
Proof.
  unfold sphere_hit.
  destruct (_ <? 0); [left; reflexivity |].
  destruct (contains ray_t (_ / _)) eqn:H1; cbn [negb].
  - right. eexists. split; [exact H1 | reflexivity].
  - destruct (contains ray_t (_ / _)) eqn:H2 in |- *; cbn [negb].
    + right. eexists. split; [exact H2 | reflexivity].
    + left; reflexivity.
Qed.

Lemma sphere_record_hit_t (s : sphere) (r : ray) (root : R) (rec : hit_record) :
  t (sphere_record_hit s r root rec) = root.
Proof. reflexivity. Qed.

Lemma sphere_hit_false (s : sphere) (r : ray) (ray_t : interval) (rec : hit_record) :
  fst (sphere_hit s r ray_t rec) = false -> snd (sphere_hit s r ray_t rec) = rec.
Proof.
  destruct (sphere_hit_cases s r ray_t rec) as [-> | (root & _ & ->)];
    cbn [fst snd]; [reflexivity | discriminate].
Qed.

Section hittable_list_loop_facts.
Context {object_t : Type}.
Variable object_hit : object_t -> ray -> interval -> hit_record -> bool * hit_record.
Variables (r : ray) (ray_t : interval).

(** While nothing has been hit, the caller's record is the one the loop
    started with. *)
Lemma hit_loop_keeps_rec (objects : list object_t) (st : hit_loop) :
  let st' := fold_left (hit_loop_body object_hit r ray_t) objects st in
  hit_anything st' = false ->
  hit_anything st = false /\ loop_rec st' = loop_rec st.
Proof.
  revert st. induction objects as [| o objects IH]; intros st; cbn.
  - intros Hst; split; [exact Hst | reflexivity].
  - intros Hst. apply IH in Hst. destruct Hst as [Hone ->].
    unfold hit_loop_body in *.
    destruct (object_hit o r _ (temp_rec st)) as [[] rec1]; cbn in *.
    + discriminate.
    + split; [exact Hone | reflexivity].
Qed.

(** The loop run from two records of the caller: the local variables go
    through the same values. *)
Lemma hit_loop_locals (objects : list object_t) (st1 st2 : hit_loop) :
  temp_rec st1 = temp_rec st2 ->
  hit_anything st1 = hit_anything st2 ->
  closest_so_far st1 = closest_so_far st2 ->
  (hit_anything st1 = true -> loop_rec st1 = loop_rec st2) ->
  let st1' := fold_left (hit_loop_body object_hit r ray_t) objects st1 in
  let st2' := fold_left (hit_loop_body object_hit r ray_t) objects st2 in
  hit_anything st1' = hit_anything st2'
  /\ (hit_anything st1' = true -> loop_rec st1' = loop_rec st2').
Proof.
  revert st1 st2. induction objects as [| o objects IH]; intros st1 st2; cbn.
  - intros _ Hh _ Hrec. split; [exact Hh | exact Hrec].
  - intros Htemp Hh Hc Hrec. apply IH; unfold hit_loop_body;
      rewrite <- Htemp, <- Hc;
      destruct (object_hit o r _ (temp_rec st1)) as [[] rec1]; cbn;
      try reflexivity; try assumption.
Qed.

Lemma hittable_list_hit_with_false (objects : list object_t) (rec : hit_record) :
  fst (hittable_list_hit_with object_hit objects r ray_t rec) = false ->
  snd (hittable_list_hit_with object_hit objects r ray_t rec) = rec.
Proof.
  unfold hittable_list_hit_with; cbn [fst snd]. intros Hst.
  apply hit_loop_keeps_rec in Hst. destruct Hst as [_ ->]. reflexivity.
Qed.

Lemma hittable_list_hit_with_overwrites (objects : list object_t)
      (rec rec' : hit_record) :
  fst (hittable_list_hit_with object_hit objects r ray_t rec) = true ->
  hittable_list_hit_with object_hit objects r ray_t rec'
  = hittable_list_hit_with object_hit objects r ray_t rec.
Proof.
  unfold hittable_list_hit_with; cbn [fst snd]. intros Hst.
  destruct (hit_loop_locals objects
              (mk_hit_loop hit_record_default false (max ray_t) rec)
              (mk_hit_loop hit_record_default false (max ray_t) rec'))
    as [Hh Hrec]; cbn; try reflexivity; try discriminate.
  rewrite <- Hh, <- (Hrec Hst). reflexivity.
Qed.
End hittable_list_loop_facts.

Lemma hittable_hit_false (world : hittable) (r : ray) (ray_t : interval)
      (rec : hit_record) :
  fst (hittable_hit world r ray_t rec) = false ->
  snd (hittable_hit world r ray_t rec) = rec.
Proof.
  destruct world as [s | objects]; cbn [hittable_hit].
  - apply sphere_hit_false.
  - apply hittable_list_hit_with_false.
Qed.

Lemma sphere_hit_overwrites (s : sphere) (r : ray) (ray_t : interval)
      (rec rec' : hit_record) :
  fst (sphere_hit s r ray_t rec) = true ->
  sphere_hit s r ray_t rec' = sphere_hit s r ray_t rec.
Proof.
  unfold sphere_hit.
  destruct (_ <? 0); cbn [fst]; [discriminate |].
  destruct (negb (contains ray_t _)); [| reflexivity].
  destruct (negb (contains ray_t _)); cbn [fst]; [discriminate | reflexivity].
Qed.

(** A hit overwrites the whole record: what [rec] held before the call does
    not show in it. *)
Lemma hittable_hit_overwrites (world : hittable) (r : ray) (ray_t : interval)
      (rec rec' : hit_record) :
  fst (hittable_hit world r ray_t rec) = true ->
  hittable_hit world r ray_t rec' = hittable_hit world r ray_t rec.
Proof.
  destruct world as [s | objects]; cbn [hittable_hit].
  - apply sphere_hit_overwrites.
  - apply hittable_list_hit_with_overwrites.
Qed.

(** C9.  When [hit] returns false, for a sphere (negative discriminant, or
    both roots outside the interval) and for a list (no member hit), the
    caller's record is what it was before the call, field by field; the
    record is written only on the path that returns true. *)
Theorem hit_false_leaves_rec (r : ray) (ray_t : interval) (rec : hit_record) :
  (forall s : sphere,
      fst (sphere_hit s r ray_t rec) = false ->
      snd (sphere_hit s r ray_t rec) = rec)
  /\ (forall objects : list hittable,
         fst (hittable_list_hit objects r ray_t rec) = false ->
         snd (hittable_list_hit objects r ray_t rec) = rec)
  /\ (forall world : hittable,
         fst (hittable_hit world r ray_t rec) = false ->
         snd (hittable_hit world r ray_t rec) = rec)
  /\ (forall s : sphere,
         let oc := (center s - origin r)%vec3 in
         let a := length_squared (direction r) in
         let h := dot (direction r) oc in
         let c := length_squared oc - radius s * radius s in
         let discriminant := h * h - a * c in
         (discriminant < 0 -> sphere_hit s r ray_t rec = (false, rec))
         /\ (contains ray_t ((h - sqrt discriminant) / a) = false ->
             contains ray_t ((h + sqrt discriminant) / a) = false ->
             sphere_hit s r ray_t rec = (false, rec))).
Proof.
  split; [| split; [| split]].
  - intros s. apply sphere_hit_false.
  - intros objects. apply hittable_list_hit_with_false.
  - intros world. apply hittable_hit_false.
  - intros s oc a h c discriminant. unfold sphere_hit.
    fold oc a h c discriminant. split.
    + intros Hd. replace (discriminant <? 0) with true
        by (symmetry; conditions; exact Hd). reflexivity.
    + intros H1 H2. rewrite H1, H2. cbn [negb].
      destruct (discriminant <? 0); reflexivity.
Qed.

(** ** sphere.h: the roots that [sphere::hit] tests *)

(** Unfolds the vector operations down to the components. *)
Ltac components :=
  unfold at_, reflect, unit_vector, length, dot, cross, length_squared,
         vec3_add, vec3_sub, vec3_neg, vec3_scale, vec3_mul, vec3_div in *;
  cbn [x y z origin direction] in *.

Lemma example_sphere_hit (m : material) (ray_t : interval) (rec : hit_record) :
  min ray_t <= 0.5 <= max ray_t ->
  sphere_hit (example_sphere m) example_ray ray_t rec = (true, example_hit m).
Proof.
  intros Hin.
  unfold sphere_hit, example_sphere, example_ray, sphere_ctor.
  cbn [center radius sphere_mat]. components.
  rewrite Rmax_right by lra.
  match goal with |- context [sqrt ?d] => replace d with (0.5 * 0.5) by lra end.
  rewrite sqrt_square by lra.
  replace (0.5 * 0.5 <? 0) with false by (symmetry; conditions; lra).
  match goal with |- context [contains ray_t (_ / ?e)] =>
    replace e with 1 by lra end.
  match goal with |- context [contains ray_t ?e] =>
    replace e with 0.5 by lra end.
  replace (contains ray_t 0.5) with true by (symmetry; conditions; exact Hin).
  cbn [negb]. f_equal.
  unfold sphere_record_hit, set_face_normal, set_mat, set_p, set_t, example_hit.
  cbn [p normal mat t front_face center radius sphere_mat]. components.
  match goal with |- context [?e <? 0] =>
    replace (e <? 0) with true by (symmetry; conditions; lra) end.
  f_equal; f_equal; lra.
Qed.

(** The two roots solve the quadratic [a t^2 - 2 h t + c = 0], the first
    being the smaller one. *)
Lemma half_coefficient_roots (a h c : R) :
  let discriminant := h * h - a * c in
  let root1 := (h - sqrt discriminant) / a in
  let root2 := (h + sqrt discriminant) / a in
  0 <= discriminant -> 0 < a ->
  a * root1 * root1 - 2 * h * root1 + c = 0
  /\ a * root2 * root2 - 2 * h * root2 + c = 0
  /\ root1 <= root2.
Proof.
  intros discriminant root1 root2 Hd Ha.
  pose proof (sqrt_sqrt discriminant Hd) as Hsq.
  pose proof (sqrt_pos discriminant) as Hpos.
  subst root1 root2. set (sd := sqrt discriminant) in *.
  assert (Hc : c = (h * h - sd * sd) / a).
  { rewrite Hsq. unfold discriminant. field. lra. }
  clearbody sd. clear Hsq Hd. clearbody discriminant.
  repeat split.
  - rewrite Hc. field. lra.
  - rewrite Hc. field. lra.
  - apply Rmult_le_compat_r; [| lra].
    apply Rlt_le, Rinv_0_lt_compat, Ha.
Qed.

(** C3.  [sphere::hit] works on the half-coefficient quadratic
    [a t^2 - 2 h t + c = 0]: no hit when the discriminant is negative;
    otherwise the smaller root [(h - sqrt d) / a] is tested first, the larger
    root when the smaller is outside the interval, and no hit when both are
    outside.  The sphere of centre (0,0,-1) and radius 0.5 and the ray from
    (0,0,0) along (0,0,-1) give t = 0.5, the point (0,0,-0.5), the normal
    (0,0,1) and front_face = true. *)
Theorem sphere_hit_roots (s : sphere) (r : ray) (ray_t : interval) (rec : hit_record) :
  let oc := (center s - origin r)%vec3 in
  let a := length_squared (direction r) in
  let h := dot (direction r) oc in
  let c := length_squared oc - radius s * radius s in
  let discriminant := h * h - a * c in
  let root1 := (h - sqrt discriminant) / a in
  let root2 := (h + sqrt discriminant) / a in
  (discriminant < 0 -> sphere_hit s r ray_t rec = (false, rec))
  /\ (0 <= discriminant -> contains ray_t root1 = true ->
      sphere_hit s r ray_t rec = (true, sphere_record_hit s r root1 rec))
  /\ (0 <= discriminant -> contains ray_t root1 = false ->
      contains ray_t root2 = true ->
      sphere_hit s r ray_t rec = (true, sphere_record_hit s r root2 rec))
  /\ (0 <= discriminant -> contains ray_t root1 = false ->
      contains ray_t root2 = false ->
      sphere_hit s r ray_t rec = (false, rec))
  /\ (0 <= discriminant -> 0 < a ->
      a * root1 * root1 - 2 * h * root1 + c = 0
      /\ a * root2 * root2 - 2 * h * root2 + c = 0
      /\ root1 <= root2)
  /\ (forall root, t (sphere_record_hit s r root rec) = root
                   /\ p (sphere_record_hit s r root rec) = at_ r root
                   /\ mat (sphere_record_hit s r root rec) = sphere_mat s)
  /\ (forall m, min ray_t <= 0.5 <= max ray_t ->
                sphere_hit (example_sphere m) example_ray ray_t rec
                = (true, example_hit m)).
Proof.
  intros oc a h c discriminant root1 root2.
  assert (Hneg : discriminant < 0 -> (discriminant <? 0) = true)
    by (intros; conditions; assumption).
  assert (Hpos : 0 <= discriminant -> (discriminant <? 0) = false)
    by (intros; conditions; assumption).
  unfold sphere_hit. fold oc a h c discriminant root1 root2.
  repeat apply conj.
  - intros Hd. rewrite (Hneg Hd). reflexivity.
  - intros Hd H1. rewrite (Hpos Hd), H1. reflexivity.
  - intros Hd H1 H2. rewrite (Hpos Hd), H1, H2. reflexivity.
  - intros Hd H1 H2. rewrite (Hpos Hd), H1, H2. reflexivity.
  - apply half_coefficient_roots.
  - intros root. repeat split.
  - intros m Hin. apply example_sphere_hit, Hin.
Qed.

(** The worked example on the interval that [ray_color] searches, its upper
    end being any bound above 0.5. *)
Lemma sphere_hit_roots_witness :
  sphere_hit (example_sphere Material) example_ray (mk_interval 0.0001 1000)
             hit_record_default
  = (true, example_hit Material).
Proof.
  apply (sphere_hit_roots (example_sphere Material) example_ray
                          (mk_interval 0.0001 1000) hit_record_default).
  cbn [min max]. lra.
Defined.

(** ** hittable_list.h: which member's record the list returns *)

Lemma sphere_hit_in_interval (s : sphere) (r : ray) (ray_t : interval)
      (rec : hit_record) :
  fst (sphere_hit s r ray_t rec) = true ->
  min ray_t <= t (snd (sphere_hit s r ray_t rec)) <= max ray_t.
Proof.
  destruct (sphere_hit_cases s r ray_t rec) as [-> | (root & Hin & ->)];
    cbn [fst snd]; [discriminate | intros _].
  rewrite sphere_record_hit_t. conditions. exact Hin.
Qed.

Section hittable_list_search.
Context {object_t : Type}.
Variable object_hit : object_t -> ray -> interval -> hit_record -> bool * hit_record.
Variables (r : ray) (ray_t : interval).

(** The search never widens: the upper bound stays below the caller's, and a
    recorded hit lies at the upper bound, above the caller's lower bound. *)
Definition search_narrowed (st : hit_loop) : Prop :=
  closest_so_far st <= max ray_t
  /\ (hit_anything st = true ->
      closest_so_far st = t (loop_rec st) /\ min ray_t <= t (loop_rec st)).

Lemma hit_loop_narrows (objects : list object_t) (st : hit_loop) :
  Forall (fun o => forall i rec,
              fst (object_hit o r i rec) = true ->
              min i <= t (snd (object_hit o r i rec)) <= max i) objects ->
  search_narrowed st ->
  search_narrowed (fold_left (hit_loop_body object_hit r ray_t) objects st).
Proof.
  intros Hobjects. revert st.
  induction Hobjects as [| o objects Ho _ IH]; intros st Hst; cbn.
  - exact Hst.
  - apply IH. destruct Hst as [Hmax Hhit]. unfold hit_loop_body.
    specialize (Ho (mk_interval (min ray_t) (closest_so_far st)) (temp_rec st)).
    destruct (object_hit o r _ (temp_rec st)) as [[] rec1];
      cbn [fst snd min max] in Ho; unfold search_narrowed; cbn.
    + specialize (Ho eq_refl). split; [lra |]. intros _. split; [reflexivity | lra].
    + split; assumption.
Qed.

(** The loop after one more member. *)
Lemma hittable_list_hit_with_snoc (objects : list object_t) (o : object_t)
      (rec : hit_record) :
  let st := fold_left (hit_loop_body object_hit r ray_t) objects
                      (mk_hit_loop hit_record_default false (max ray_t) rec) in
  hittable_list_hit_with object_hit (objects ++ [o]) r ray_t rec
  = let st' := hit_loop_body object_hit r ray_t st o in
    (hit_anything st', loop_rec st').
Proof.
  unfold hittable_list_hit_with. rewrite fold_left_app. reflexivity.
Qed.
End hittable_list_search.

Lemma hittable_hit_in_interval (world : hittable) (r : ray) :
  forall (ray_t : interval) (rec : hit_record),
    fst (hittable_hit world r ray_t rec) = true ->
    min ray_t <= t (snd (hittable_hit world r ray_t rec)) <= max ray_t.
Proof.
  induction world as [s | objects IH] using hittable_ind; intros ray_t rec;
    cbn [hittable_hit].
  - apply sphere_hit_in_interval.
  - unfold hittable_list_hit_with; cbn [fst snd]. intros Hhit.
    destruct (hit_loop_narrows hittable_hit r ray_t objects
                (mk_hit_loop hit_record_default false (max ray_t) rec) IH)
      as [Hmax Hrec].
    + split; cbn; [lra | discriminate].
    + specialize (Hrec Hhit). lra.
Qed.

(** Whether a hittable is hit does not depend on the record passed in. *)
Lemma hittable_hit_result (world : hittable) (r : ray) (ray_t : interval)
      (rec rec' : hit_record) :
  fst (hittable_hit world r ray_t rec') = fst (hittable_hit world r ray_t rec).
Proof.
  destruct (fst (hittable_hit world r ray_t rec)) eqn:Hhit.
  - rewrite (hittable_hit_overwrites world r ray_t rec rec' Hhit). exact Hhit.
  - destruct (fst (hittable_hit world r ray_t rec')) eqn:Hhit'; [| reflexivity].
    rewrite (hittable_hit_overwrites world r ray_t rec' rec Hhit') in Hhit.
    congruence.
Qed.

(** The state of the loop of a list whose search has found [best]. *)
Lemma hittable_list_hit_found (objects : list hittable) (r : ray)
      (ray_t : interval) (rec best : hit_record) :
  hittable_list_hit objects r ray_t rec = (true, best) ->
  let st := fold_left (hit_loop_body hittable_hit r ray_t) objects
                      (mk_hit_loop hit_record_default false (max ray_t) rec) in
  hit_anything st = true /\ loop_rec st = best
  /\ closest_so_far st = t best /\ min ray_t <= t best <= max ray_t.
Proof.
  intros Hhit st. unfold hittable_list_hit, hittable_list_hit_with in Hhit.
  fold st in Hhit. injection Hhit as Hany Hrec.
  assert (Hn : search_narrowed ray_t st).
  { apply hit_loop_narrows.
    - apply Forall_forall. intros o _ i rec'. apply hittable_hit_in_interval.
    - split; cbn; [lra | discriminate]. }
  destruct Hn as [Hmax Hn]. destruct (Hn Hany) as [Hclosest Hmin].
  rewrite Hrec in Hclosest, Hmin. repeat split; try assumption. lra.
Qed.

(** A sphere that reports a root to the caller's interval reports the same
    root to every interval with the same lower end that still holds it. *)
Lemma sphere_hit_narrowed (s : sphere) (r : ray) (ray_t : interval)
      (rec rec' found : hit_record) (closest : R) :
  sphere_hit s r ray_t rec = (true, found) ->
  t found <= closest <= max ray_t ->
  sphere_hit s r (mk_interval (min ray_t) closest) rec' = (true, found).
Proof.
  unfold sphere_hit.
  destruct (_ <? 0); [discriminate |].
  destruct (contains ray_t _) eqn:H1; cbn [negb].
  - intros Hfound Hc. injection Hfound as <-.
    rewrite sphere_record_hit_t in Hc.
    match goal with |- context [contains (mk_interval ?lo ?hi) ?e] =>
      replace (contains (mk_interval lo hi) e) with true
        by (symmetry; conditions; cbn [min max]; lra) end.
    reflexivity.
  - destruct (contains ray_t _) eqn:H2 in |- *; cbn [negb]; [| discriminate].
    intros Hfound Hc. injection Hfound as <-.
    rewrite sphere_record_hit_t in Hc.
    match goal with |- context [contains (mk_interval ?lo ?hi) ?e] =>
      replace (contains (mk_interval lo hi) e) with false
        by (symmetry; conditions; cbn [min max]; lra) end.
    cbn [negb].
    match goal with |- context [contains (mk_interval ?lo ?hi) ?e] =>
      replace (contains (mk_interval lo hi) e) with true
        by (symmetry; conditions; cbn [min max]; lra) end.
    reflexivity.
Qed.

Lemma hit_loop_body_hit {object_t : Type}
      (object_hit : object_t -> ray -> interval -> hit_record -> bool * hit_record)
      (r : ray) (ray_t : interval) (st : hit_loop) (o : object_t)
      (found : hit_record) :
  object_hit o r (mk_interval (min ray_t) (closest_so_far st)) (temp_rec st)
  = (true, found) ->
  hit_loop_body object_hit r ray_t st o = mk_hit_loop found true (t found) found.
Proof. intros Ho. unfold hit_loop_body. rewrite Ho. reflexivity. Qed.

Lemma hit_loop_body_miss {object_t : Type}
      (object_hit : object_t -> ray -> interval -> hit_record -> bool * hit_record)
      (r : ray) (ray_t : interval) (st : hit_loop) (o : object_t) :
  fst (object_hit o r (mk_interval (min ray_t) (closest_so_far st)) (temp_rec st))
  = false ->
  hit_anything (hit_loop_body object_hit r ray_t st o) = hit_anything st
  /\ loop_rec (hit_loop_body object_hit r ray_t st o) = loop_rec st.
Proof.
  intros Ho. unfold hit_loop_body.
  destruct (object_hit o r _ (temp_rec st)) as [hit tmp]. cbn [fst] in Ho.
  subst hit. split; reflexivity.
Qed.

(** The example sphere alone in a list. *)
Lemma example_alone (m : material) (ray_t : interval) (rec : hit_record) :
  min ray_t <= 0.5 <= max ray_t ->
  hittable_list_hit [Sphere (example_sphere m)] example_ray ray_t rec
  = (true, example_hit m).
Proof.
  intros Hin. unfold hittable_list_hit, hittable_list_hit_with. cbn [fold_left].
  rewrite (hit_loop_body_hit hittable_hit example_ray ray_t _
             (Sphere (example_sphere m)) (example_hit m))
    by (cbn [hittable_hit]; apply example_sphere_hit; cbn [min max closest_so_far]; lra).
  reflexivity.
Qed.

(** Two copies of the example sphere with materials [m1] and [m2], tested in
    this order: the list returns the record of the second. *)
Lemma example_tie (m1 m2 : material) (ray_t : interval) (rec : hit_record) :
  min ray_t <= 0.5 <= max ray_t ->
  hittable_list_hit [Sphere (example_sphere m1); Sphere (example_sphere m2)]
                    example_ray ray_t rec
  = (true, example_hit m2).
Proof.
  intros Hin. unfold hittable_list_hit, hittable_list_hit_with. cbn [fold_left].
  rewrite (hit_loop_body_hit hittable_hit example_ray ray_t _
             (Sphere (example_sphere m1)) (example_hit m1))
    by (cbn [hittable_hit]; apply example_sphere_hit; cbn [min max closest_so_far]; lra).
  rewrite (hit_loop_body_hit hittable_hit example_ray ray_t _
             (Sphere (example_sphere m2)) (example_hit m2))
    by (cbn [hittable_hit]; apply example_sphere_hit;
        cbn [min max closest_so_far t example_hit]; lra).
  reflexivity.
Qed.

(** C2, as stated, fails: two spheres of the same centre and radius, a
    diffuse one tested first and a glass one tested second, both report
    t = 0.5, and the list returns the record of the glass one. *)
Lemma first_tested_wins_counterexample :
  ~ first_tested_wins
      (Sphere (example_sphere (Lambertian (lambertian_ctor (mk_vec3 0.5 0.5 0.5)))))
      (Sphere (example_sphere (Dielectric (dielectric_ctor 1.5))))
      example_ray (mk_interval 0.0001 1000) hit_record_default.
Proof.
  intros Hclaim.
  specialize (Hclaim (example_hit (Lambertian (lambertian_ctor (mk_vec3 0.5 0.5 0.5))))
                     (example_hit (Dielectric (dielectric_ctor 1.5)))).
  cbn [hittable_hit] in Hclaim.
  rewrite !example_sphere_hit in Hclaim by (cbn [min max]; lra).
  specialize (Hclaim eq_refl eq_refl eq_refl).
  rewrite example_tie in Hclaim by (cbn [min max]; lra).
  discriminate Hclaim.
Qed.

(** C2, amended.  The interval passed to a later member is closed at the
    closest [t] found so far.  With [best] the record found among the
    members tested before [o]: if [o] reports a hit to that interval, its
    [t] is at most [t best] and its record replaces [best]; if it reports
    none, [best] stays.  A sphere that reports to the caller's interval a
    [t] equal to (or below) [t best] therefore replaces [best]: a tie goes to
    the member tested last. *)
Theorem hittable_list_hit_ties (objects : list hittable) (o : hittable) (r : ray)
        (ray_t : interval) (rec best : hit_record) :
  hittable_list_hit objects r ray_t rec = (true, best) ->
  (forall rec' found,
      hittable_hit o r (mk_interval (min ray_t) (t best)) rec' = (true, found) ->
      t found <= t best
      /\ hittable_list_hit (hittable_list_add objects o) r ray_t rec = (true, found))
  /\ (forall rec',
         fst (hittable_hit o r (mk_interval (min ray_t) (t best)) rec') = false ->
         hittable_list_hit (hittable_list_add objects o) r ray_t rec = (true, best))
  /\ (forall s rec' found,
         o = Sphere s ->
         sphere_hit s r ray_t rec' = (true, found) ->
         t found <= t best ->
         hittable_list_hit (hittable_list_add objects o) r ray_t rec = (true, found)).
Proof.
  intros Hbest. unfold hittable_list_add.
  pose proof (hittable_list_hit_found objects r ray_t rec best Hbest) as Hfound.
  cbn zeta in Hfound.
  set (st := fold_left (hit_loop_body hittable_hit r ray_t) objects
               (mk_hit_loop hit_record_default false (max ray_t) rec)) in Hfound.
  destruct Hfound as (Hany & Hrec & Hclosest & Hmin & Hmax).
  assert (Hsnoc : hittable_list_hit (objects ++ [o]) r ray_t rec
                  = (hit_anything (hit_loop_body hittable_hit r ray_t st o),
                     loop_rec (hit_loop_body hittable_hit r ray_t st o))).
  { unfold hittable_list_hit. rewrite hittable_list_hit_with_snoc. reflexivity. }
  assert (Hhit : forall rec' found,
             hittable_hit o r (mk_interval (min ray_t) (t best)) rec' = (true, found) ->
             hittable_list_hit (objects ++ [o]) r ray_t rec = (true, found)).
  { intros rec' found Ho. rewrite Hsnoc.
    rewrite (hit_loop_body_hit hittable_hit r ray_t st o found); [reflexivity |].
    rewrite Hclosest.
    rewrite (hittable_hit_overwrites o r _ rec' (temp_rec st))
      by (rewrite Ho; reflexivity).
    exact Ho. }
  split; [| split].
  - intros rec' found Ho. split; [| exact (Hhit rec' found Ho)].
    pose proof (hittable_hit_in_interval
                  o r (mk_interval (min ray_t) (t best)) rec') as Hin.
    rewrite Ho in Hin. cbn [fst snd min max] in Hin.
    apply (Hin eq_refl).
  - intros rec' Ho. rewrite Hsnoc.
    destruct (hit_loop_body_miss hittable_hit r ray_t st o) as [-> ->].
    + rewrite Hclosest.
      rewrite (hittable_hit_result o r _ rec' (temp_rec st)). exact Ho.
    + rewrite Hany, Hrec. reflexivity.
  - intros s rec' found -> Hs Hle.
    apply (Hhit rec' found). cbn [hittable_hit].
    apply (sphere_hit_narrowed s r ray_t rec' rec' found (t best) Hs).
    lra.
Qed.

(** The two spheres of the counterexample: the glass sphere, tested after
    the diffuse one, ties with it at t = 0.5 and its record is returned. *)
Lemma hittable_list_hit_ties_witness :
  hittable_list_hit
    (hittable_list_add
       [Sphere (example_sphere (Lambertian (lambertian_ctor (mk_vec3 0.5 0.5 0.5))))]
       (Sphere (example_sphere (Dielectric (dielectric_ctor 1.5)))))
    example_ray (mk_interval 0.0001 1000) hit_record_default
  = (true, example_hit (Dielectric (dielectric_ctor 1.5))).
Proof.
  refine (proj2 (proj2 (hittable_list_hit_ties
            [Sphere (example_sphere (Lambertian (lambertian_ctor (mk_vec3 0.5 0.5 0.5))))]
            (Sphere (example_sphere (Dielectric (dielectric_ctor 1.5))))
            example_ray (mk_interval 0.0001 1000) hit_record_default
            (example_hit (Lambertian (lambertian_ctor (mk_vec3 0.5 0.5 0.5)))) _))
            (example_sphere (Dielectric (dielectric_ctor 1.5)))
            hit_record_default
            (example_hit (Dielectric (dielectric_ctor 1.5))) eq_refl _ _).
  - apply example_alone. cbn [min max]. lra.
  - apply example_sphere_hit. cbn [min max]. lra.
  - cbn [t example_hit]. lra.
Defined.

(** The upward ray from the origin passes beside the example sphere: the
    search fails and leaves the record as it was. *)
Lemma hit_false_leaves_rec_witness :
  snd (sphere_hit (example_sphere Material)
                  (mk_ray (mk_vec3 0 0 0) (mk_vec3 0 1 0))
                  (mk_interval 0.0001 1000) hit_record_default)
  = hit_record_default.
Proof.
  destruct (hit_false_leaves_rec (mk_ray (mk_vec3 0 0 0) (mk_vec3 0 1 0))
                                 (mk_interval 0.0001 1000) hit_record_default)
    as (Hsphere & _ & _ & Hroots).
  apply Hsphere.
  destruct (Hroots (example_sphere Material)) as [Hneg _].
  rewrite Hneg; [reflexivity |].
  unfold example_sphere, sphere_ctor. cbn [center radius]. components.
  rewrite Rmax_right by lra. lra.
Defined.

(** ** material.h: what the three materials scatter *)

Lemma vec3_eq (u v : vec3) : x u = x v -> y u = y v -> z u = z v -> u = v.
Proof. destruct u, v; cbn [x y z]; intros -> -> ->; reflexivity. Qed.

Lemma vec3_add_zero_scale (u v : vec3) : (u + 0 *: v)%vec3 = u.
Proof. destruct u, v. components. f_equal; ring. Qed.

(** C5.  [dielectric::scatter] returns true for every incoming ray and hit
    record, and sets the attenuation to (1,1,1), whichever of the reflected
    and the refracted direction it gives to the scattered ray. *)
Theorem dielectric_scatter_always `{helpers} (self : dielectric) (r_in : ray)
        (rec : hit_record) (attenuation : color) (scattered : ray) (g : rng) :
  let res := dielectric_scatter self r_in rec attenuation scattered g in
  let ri := if front_face rec then 1 / refraction_index self
            else refraction_index self in
  let unit_direction := unit_vector (direction r_in) in
  scatter_returns res = true
  /\ scatter_attenuation res = mk_vec3 1 1 1
  /\ origin (scatter_scattered res) = p rec
  /\ (direction (scatter_scattered res) = reflect unit_direction (normal rec)
      \/ direction (scatter_scattered res) = refract unit_direction (normal rec) ri).
Proof.
  intros res ri unit_direction. subst res. unfold dielectric_scatter.
  assert (Hri : (if front_face rec then 1.0 / refraction_index self
                 else refraction_index self) = ri).
  { subst ri. destruct (front_face rec); [| reflexivity]. f_equal. lra. }
  rewrite Hri. fold unit_direction.
  destruct (_ >? 1.0).
  - cbn. repeat split; [f_equal; lra | left; reflexivity].
  - destruct (random_double g) as [sample g']. destruct (_ >? sample); cbn.
    + repeat split; [f_equal; lra | left; reflexivity].
    + repeat split; [f_equal; lra | right; reflexivity].
Qed.

(** C6.  A metal whose fuzz is 0 scatters along the normalised mirror
    direction of the incoming ray, the random perturbation contributing
    nothing, and [scatter] returns true exactly when that direction has a
    positive dot product with the normal. *)
Theorem metal_scatter_mirror `{helpers} (self : metal) (r_in : ray)
        (rec : hit_record) (attenuation : color) (scattered : ray) (g : rng) :
  fuzz self = 0 ->
  let res := metal_scatter self r_in rec attenuation scattered g in
  direction (scatter_scattered res)
  = unit_vector (reflect (direction r_in) (normal rec))
  /\ (scatter_returns res = true
      <-> dot (direction (scatter_scattered res)) (normal rec) > 0)
  /\ (scatter_returns res = true
      <-> dot (unit_vector (reflect (direction r_in) (normal rec))) (normal rec) > 0).
Proof.
  intros Hfuzz res. subst res. unfold metal_scatter.
  destruct (random_unit_vector g) as [sample g'].
  cbn [scatter_scattered scatter_returns direction].
  rewrite Hfuzz, vec3_add_zero_scale.
  repeat split; intros Hdot; conditions; lra.
Qed.

Lemma example_near_zero_small (v : vec3) :
  example_near_zero v = true ->
  Rabs (x v) < 0.00000001 /\ Rabs (y v) < 0.00000001 /\ Rabs (z v) < 0.00000001.
Proof.
  unfold example_near_zero. rewrite !andb_true_iff, !Rltb_true. tauto.
Qed.

(** A mirror ([fuzz] 0) hit from above on a floor whose normal is (0,1,0). *)
Lemma metal_scatter_mirror_witness :
  let res := metal_scatter (H := example_helpers)
               (metal_ctor (mk_vec3 0.8 0.8 0.8) 0)
               (mk_ray (mk_vec3 0 1 0) (mk_vec3 0 (-1) 0))
               (mk_hit_record (mk_vec3 0 0 0) (mk_vec3 0 1 0) None 1 true)
               vec3_default ray_default tt in
  direction (scatter_scattered res)
  = unit_vector (reflect (mk_vec3 0 (-1) 0) (mk_vec3 0 1 0)).
Proof.
  refine (proj1 (metal_scatter_mirror (H := example_helpers)
                   (metal_ctor (mk_vec3 0.8 0.8 0.8) 0)
                   (mk_ray (mk_vec3 0 1 0) (mk_vec3 0 (-1) 0))
                   (mk_hit_record (mk_vec3 0 0 0) (mk_vec3 0 1 0) None 1 true)
                   vec3_default ray_default tt _)).
  unfold metal_ctor; cbn [fuzz].
  replace (0 <? 1) with true by (symmetry; conditions; lra). reflexivity.
Defined.

(** C7.  [lambertian::scatter] returns true with the albedo as attenuation;
    the scattered ray leaves the hit point along the normal plus the sampled
    unit vector, or along the normal itself when that sum is near zero; the
    direction it ends with is not near zero.  The sample is a unit vector
    and "near zero" means every component below a tolerance of at most
    1/4 in absolute value. *)
Theorem lambertian_scatter_direction `{helpers} (self : lambertian) (r_in : ray)
        (rec : hit_record) (attenuation : color) (scattered : ray) (g : rng)
        (tolerance : R) :
  tolerance <= 1 / 4 ->
  (forall v, near_zero v = true ->
             Rabs (x v) < tolerance /\ Rabs (y v) < tolerance
             /\ Rabs (z v) < tolerance) ->
  length_squared (fst (random_unit_vector g)) = 1 ->
  let res := lambertian_scatter self r_in rec attenuation scattered g in
  let sum := (normal rec + fst (random_unit_vector g))%vec3 in
  scatter_returns res = true
  /\ scatter_attenuation res = lambertian_albedo self
  /\ origin (scatter_scattered res) = p rec
  /\ direction (scatter_scattered res) = (if near_zero sum then normal rec else sum)
  /\ near_zero (direction (scatter_scattered res)) = false.
Proof.
  intros Htol Hnear Hunit res sum. subst res sum. unfold lambertian_scatter.
  destruct (random_unit_vector g) as [sample g']. cbn [fst] in *.
  cbn [scatter_returns scatter_attenuation scatter_scattered origin direction].
  repeat split.
  destruct (near_zero (normal rec + sample)) eqn:Hsum; [| exact Hsum].
  destruct (near_zero (normal rec)) eqn:Hnormal; [exfalso | reflexivity].
  apply Hnear in Hsum. apply Hnear in Hnormal.
  destruct (normal rec) as [nx ny nz], sample as [sx sy sz]. components.
  destruct Hsum as (Hx & Hy & Hz), Hnormal as (Hnx & Hny & Hnz).
  apply Rabs_def2 in Hx, Hy, Hz, Hnx, Hny, Hnz.
  assert (Hsx : sx * sx < 4 * tolerance * tolerance) by nra.
  assert (Hsy : sy * sy < 4 * tolerance * tolerance) by nra.
  assert (Hsz : sz * sz < 4 * tolerance * tolerance) by nra.
  nra.
Qed.

(** The sampled vector (1,0,0) cancels the normal (-1,0,0): the scattered
    ray follows the normal. *)
Lemma lambertian_scatter_direction_witness :
  let res := lambertian_scatter (H := example_helpers)
               (lambertian_ctor (mk_vec3 0.5 0.5 0.5))
               example_ray
               (mk_hit_record (mk_vec3 0 0 0) (mk_vec3 (-1) 0 0) None 1 true)
               vec3_default ray_default tt in
  scatter_returns res = true
  /\ scatter_attenuation res = mk_vec3 0.5 0.5 0.5
  /\ origin (scatter_scattered res) = mk_vec3 0 0 0
  /\ direction (scatter_scattered res)
     = (if example_near_zero (mk_vec3 (-1) 0 0 + mk_vec3 1 0 0)
        then mk_vec3 (-1) 0 0 else (mk_vec3 (-1) 0 0 + mk_vec3 1 0 0)%vec3)
  /\ example_near_zero (direction (scatter_scattered res)) = false.
Proof.
  apply (lambertian_scatter_direction (H := example_helpers)
           (lambertian_ctor (mk_vec3 0.5 0.5 0.5)) example_ray
           (mk_hit_record (mk_vec3 0 0 0) (mk_vec3 (-1) 0 0) None 1 true)
           vec3_default ray_default tt 0.00000001).
  - lra.
  - exact example_near_zero_small.
  - cbn [random_unit_vector example_helpers fst]. components. lra.
Defined.

(** ** camera.h: the background and the derived image size *)

Lemma empty_list_never_hit (r : ray) (ray_t : interval) (rec : hit_record) :
  hittable_hit (HittableList []) r ray_t rec = (false, rec).
Proof. reflexivity. Qed.

Lemma ray_color_bounces_miss `{helpers} (bounces : nat) (r : ray)
      (world : hittable) (g : rng) :
  fst (hittable_hit world r (mk_interval 0.0001 infinity) hit_record_default) = false ->
  camera.ray_color_bounces (S bounces) r world g = Some (background_gradient r, g).
Proof.
  intros Hmiss. cbn [camera.ray_color_bounces].
  destruct (hittable_hit world r _ hit_record_default) as [hit rec].
  cbn [fst] in Hmiss. subst hit.
  unfold background_gradient. generalize (y (unit_vector (direction r))). intros u.
  apply f_equal, (f_equal (fun c => (c, g))).
  apply vec3_eq; unfold vec3_add, vec3_scale; cbn [x y z]; lra.
Qed.

Lemma ray_color_bounces_depth `{helpers} (r : ray) (depth : Z) (world : hittable)
      (g : rng) :
  camera.ray_color_bounces (Z.to_nat depth) r world g
  = camera.ray_color r depth world g.
Proof.
  unfold camera.ray_color. destruct (Z.leb_spec depth 0) as [Hle | _]; [| reflexivity].
  replace (Z.to_nat depth) with O by lia. reflexivity.
Qed.

(** The recursion of [camera::ray_color] as the source writes it, with
    [depth - 1] at the recursive call. *)
Lemma ray_color_equation `{helpers} (r : ray) (depth : Z) (world : hittable)
      (g : rng) :
  camera.ray_color r depth world g
  = if (depth <=? 0)%Z then Some (mk_vec3 0 0 0, g)
    else
      let (hit, rec) :=
        hittable_hit world r (mk_interval 0.0001 infinity) hit_record_default in
      if hit then
        match mat rec with
        | None => None
        | Some m =>
          let res := scatter m r rec vec3_default ray_default g in
          if scatter_returns res then
            match camera.ray_color (scatter_scattered res) (depth - 1) world
                                   (scatter_rng res) with
            | Some (c, g') => Some ((scatter_attenuation res * c)%vec3, g')
            | None => None
            end
          else Some (mk_vec3 0 0 0, scatter_rng res)
        end
      else
        let unit_direction := unit_vector (direction r) in
        let a := 0.5 * (y unit_direction + 1.0) in
        Some (((1.0 - a) *: mk_vec3 1.0 1.0 1.0 + a *: mk_vec3 0.5 0.7 1.0)%vec3, g).
Proof.
  unfold camera.ray_color at 1.
  destruct (Z.leb_spec depth 0) as [Hle | Hpos]; [reflexivity |].
  replace (Z.to_nat depth) with (S (Z.to_nat (depth - 1))) by lia.
  cbn [camera.ray_color_bounces].
  destruct (hittable_hit world r _ hit_record_default) as [[] rec]; [| reflexivity].
  destruct (mat rec) as [m |]; [| reflexivity].
  cbn zeta. destruct (scatter_returns _); [| reflexivity].
  rewrite ray_color_bounces_depth. reflexivity.
Qed.

(** C1, as stated, fails at depth 0: in the empty scene the colour of the
    example ray is black, which is not the background gradient (whose blue
    channel is 1). *)
Lemma ray_color_depth_counterexample :
  camera.ray_color (H := example_helpers) example_ray 0 (HittableList []) tt
  <> Some (background_gradient example_ray, tt).
Proof.
  unfold camera.ray_color. cbn [Z.leb Z.compare].
  unfold background_gradient. generalize (y (unit_vector (direction example_ray))).
  intros u. unfold vec3_add, vec3_scale; cbn [x y z].
  intros Heq. injection Heq as _ _ Hblue. lra.
Qed.

(** C1, amended.  For every depth that is at most 0, [ray_color] returns
    black, whatever the scene and the ray.  For every positive depth and
    every ray that hits nothing (in the empty scene, no ray does),
    [ray_color] returns the background gradient
    [(1 - a) white + a (0.5, 0.7, 1.0)] with
    [a = 0.5 (unit(direction).y + 1)] and draws no random number; two rays
    with the same normalised vertical component get the same colour. *)
Theorem ray_color_background `{helpers} (r : ray) (depth : Z) (world : hittable)
        (g : rng) :
  ((depth <= 0)%Z -> camera.ray_color r depth world g = Some (mk_vec3 0 0 0, g))
  /\ ((0 < depth)%Z ->
      world = HittableList []
      \/ fst (hittable_hit world r (mk_interval 0.0001 infinity) hit_record_default)
         = false ->
      camera.ray_color r depth world g = Some (background_gradient r, g))
  /\ (forall r' : ray,
         y (unit_vector (direction r')) = y (unit_vector (direction r)) ->
         background_gradient r' = background_gradient r).
Proof.
  split; [| split].
  - intros Hdepth. unfold camera.ray_color.
    destruct (Z.leb_spec depth 0) as [_ | Hpos]; [reflexivity | lia].
  - intros Hdepth Hworld. unfold camera.ray_color.
    destruct (Z.leb_spec depth 0) as [Hle | _]; [lia |].
    destruct (Z.to_nat depth) as [| bounces] eqn:Hnat; [lia |].
    apply ray_color_bounces_miss.
    destruct Hworld as [-> | Hmiss]; [reflexivity | exact Hmiss].
  - intros r' Hy. unfold background_gradient. rewrite Hy. reflexivity.
Qed.

(** The example ray in the empty scene at depth 50, and in a scene with the
    example sphere at depth -3. *)
Lemma ray_color_background_witness :
  camera.ray_color (H := example_helpers) example_ray 50 (HittableList []) tt
  = Some (background_gradient example_ray, tt)
  /\ camera.ray_color (H := example_helpers) example_ray (-3)
                      (HittableList [Sphere (example_sphere Material)]) tt
     = Some (mk_vec3 0 0 0, tt).
Proof.
  split.
  - refine (proj1 (proj2 (ray_color_background (H := example_helpers)
                            example_ray 50 (HittableList []) tt)) _ _).
    + lia.
    + left. reflexivity.
  - refine (proj1 (ray_color_background (H := example_helpers) example_ray (-3)
                     (HittableList [Sphere (example_sphere Material)]) tt) _).
    lia.
Defined.

(** Raised to 1, the truncation and the floor of a quotient agree. *)
Lemma max_1_truncation_floor (v : R) :
  Z.max 1 (double_to_int v) = Z.max 1 (Int_part v).
Proof.
  unfold double_to_int. destruct (0 <=? v) eqn:Hv; [reflexivity |]. conditions.
  destruct (base_Int_part v) as [Hlo _].
  destruct (base_Int_part (- v)) as [_ Hup].
  assert (H1 : (Int_part v < 0)%Z) by (apply lt_IZR; lra).
  assert (H2 : (-1 < Int_part (- v))%Z) by (apply lt_IZR; lra).
  lia.
Qed.

Lemma int_of_double_fits `{int_conversion} (v : R) :
  (INT_MIN <= double_to_int v <= INT_MAX)%Z -> int_of_double v = double_to_int v.
Proof.
  intros [Hlo Hhi]. unfold int_of_double. cbn zeta.
  destruct (Z.leb_spec INT_MIN (double_to_int v)); [| lia].
  destruct (Z.leb_spec (double_to_int v) INT_MAX); [reflexivity | lia].
Qed.

Lemma initialize_image_height `{helpers} `{int_conversion} (self : camera.t) :
  camera.image_height (camera.initialize self)
  = Z.max 1 (int_of_double (int_to_double (camera.image_width self)
                            / camera.aspect_ratio self)).
Proof.
  cbn [camera.initialize camera.image_height].
  destruct (Z.ltb_spec
              (int_of_double (int_to_double (camera.image_width self)
                              / camera.aspect_ratio self)) 1); lia.
Qed.

(** C8.  [camera::initialize] sets [pixel_samples_scale] to
    [1 / samples_per_pixel] whatever [samples_per_pixel] is; when
    [samples_per_pixel >= 1] the divisor is not zero and the scale is its
    inverse.  [image_height] is at least 1 for every configuration,
    whatever the conversion to [int] stores.  When the aspect ratio is not
    zero, [image_height] is the [int] converted from
    [image_width / aspect_ratio], raised to 1 when it is below 1; when
    moreover the truncated quotient is an [int], [image_height] is that
    truncation raised to 1, which is also the floor of the quotient raised
    to 1, and it is 1 when the quotient truncates to zero. *)
Theorem initialize_guards `{helpers} `{int_conversion} (self : camera.t) :
  let quotient := int_to_double (camera.image_width self) / camera.aspect_ratio self in
  let samples := int_to_double (camera.samples_per_pixel self) in
  camera.pixel_samples_scale (camera.initialize self) = 1 / samples
  /\ ((1 <= camera.samples_per_pixel self)%Z ->
      samples <> 0
      /\ camera.pixel_samples_scale (camera.initialize self) * samples = 1
      /\ 0 < camera.pixel_samples_scale (camera.initialize self) <= 1)
  /\ (1 <= camera.image_height (camera.initialize self))%Z
  /\ (camera.aspect_ratio self <> 0 ->
      camera.image_height (camera.initialize self) = Z.max 1 (int_of_double quotient)
      /\ ((INT_MIN <= double_to_int quotient <= INT_MAX)%Z ->
          camera.image_height (camera.initialize self)
          = Z.max 1 (double_to_int quotient)
          /\ camera.image_height (camera.initialize self)
             = Z.max 1 (Int_part quotient)
          /\ (double_to_int quotient = 0%Z ->
              camera.image_height (camera.initialize self) = 1%Z))).
Proof.
  intros quotient samples.
  assert (Hscale : camera.pixel_samples_scale (camera.initialize self) = 1 / samples).
  { cbn [camera.initialize camera.pixel_samples_scale]. fold samples.
    f_equal. lra. }
  pose proof (initialize_image_height self) as Hheight. fold quotient in Hheight.
  assert (Hsamples : (1 <= camera.samples_per_pixel self)%Z -> 1 <= samples)
    by (intros Hspp; subst samples; unfold int_to_double; apply IZR_le; exact Hspp).
  rewrite Hscale, Hheight.
  split; [reflexivity |]. split; [| split].
  - intros Hspp. apply Hsamples in Hspp.
    assert (Hinv : 0 < / samples <= 1).
    { split; [apply Rinv_0_lt_compat; lra |].
      rewrite <- Rinv_1. apply Rinv_le_contravar; lra. }
    repeat split; try (unfold Rdiv; lra). field. lra.
  - lia.
  - intros _. split; [reflexivity |].
    intros Hfits. rewrite (int_of_double_fits quotient Hfits).
    split; [reflexivity |]. split; [apply max_1_truncation_floor |].
    intros ->. reflexivity.
Qed.

(** The default configuration: 10 samples per pixel, and a quotient of 100
    rows. *)
Lemma initialize_guards_witness :
  (int_to_double (camera.samples_per_pixel example_camera) <> 0
   /\ camera.pixel_samples_scale
        (camera.initialize (H := example_helpers) (C := example_int_conversion)
                           example_camera)
      * int_to_double (camera.samples_per_pixel example_camera) = 1
   /\ 0 < camera.pixel_samples_scale
            (camera.initialize (H := example_helpers) (C := example_int_conversion)
                               example_camera)
      <= 1)
  /\ camera.image_height
       (camera.initialize (H := example_helpers) (C := example_int_conversion)
                          example_camera)
     = Z.max 1 (double_to_int (int_to_double (camera.image_width example_camera)
                               / camera.aspect_ratio example_camera)).
Proof.
  pose proof (initialize_guards (H := example_helpers) (H0 := example_int_conversion)
                                example_camera) as (_ & Hscale & _ & Hheight).
  split.
  - apply Hscale. cbn [camera.samples_per_pixel example_camera]. lia.
  - apply Hheight.
    + cbn [camera.aspect_ratio example_camera]. lra.
    + cbn [camera.image_width camera.aspect_ratio example_camera].
      replace (int_to_double 100 / 1.0) with 100 by (unfold int_to_double; lra).
      rewrite (double_to_int_floor 100 100) by lra.
      unfold INT_MIN, INT_MAX. lia.
Defined.

(** A quotient that is not an [int]: where the conversion stores [INT_MIN],
    the aspect ratio 1e-10 gives the height 1, not the 10^12 rows of the
    quotient. *)
Lemma initialize_narrow_image_height :
  camera.image_height
    (camera.initialize (H := example_helpers) (C := example_int_conversion)
                       example_narrow_camera)
  = 1%Z.
Proof.
  rewrite initialize_image_height.
  cbn [camera.image_width camera.aspect_ratio example_narrow_camera].
  replace (int_to_double 100 / (1 / 10000000000)) with (IZR 1000000000000)
    by (unfold int_to_double; field).
  unfold int_of_double. cbn zeta.
  rewrite (double_to_int_floor (IZR 1000000000000) 1000000000000)
    by (try split; lra).
  reflexivity.
Qed.

(** * Further properties of the code *)

(** ** interval.h *)

Lemma clamp_monotone (i : interval) (v w : R) :
  min i <= max i -> v <= w -> clamp i v <= clamp i w.
Proof.
  intros Hi Hvw. unfold clamp.
  destruct (v <? min i) eqn:Hv1; [| destruct (v >? max i) eqn:Hv2];
    (destruct (w <? min i) eqn:Hw1; [| destruct (w >? max i) eqn:Hw2]);
    conditions; lra.
Qed.

(** X1.  On an interval that is not empty ([min <= max]), [clamp] lands in
    the interval, leaves the values of the interval as they are, is
    idempotent and keeps the order of its arguments. *)
Theorem clamp_in_interval (i : interval) (v w : R) :
  min i <= max i ->
  contains i (clamp i v) = true
  /\ (contains i v = true -> clamp i v = v)
  /\ clamp i (clamp i v) = clamp i v
  /\ (v <= w -> clamp i v <= clamp i w).
Proof.
  intros Hi. unfold clamp.
  destruct (v <? min i) eqn:Hv1; [| destruct (v >? max i) eqn:Hv2];
    (destruct (w <? min i) eqn:Hw1; [| destruct (w >? max i) eqn:Hw2]);
    conditions; repeat split; intros; conditions; try lra;
    match goal with
    | |- (if ?a <? ?b then _ else _) = _ =>
      let E := fresh in
      destruct (a <? b) eqn:E; conditions; try lra;
      match goal with
      | |- (if ?a >? ?b then _ else _) = _ =>
        let E' := fresh in destruct (a >? b) eqn:E'; conditions; lra
      end
    end.
Qed.

Lemma clamp_in_interval_witness :
  contains intensity (clamp intensity 2) = true.
Proof.
  apply (clamp_in_interval intensity 2 2).
  unfold intensity; cbn [min max]. lra.
Defined.

(** X2.  An interval of negative size ([min > max], as the default
    constructor builds it) contains no value and surrounds none; on every
    interval a surrounded value is contained, and a contained value shows
    that the size is not negative. *)
Theorem empty_interval_contains_nothing (i : interval) (v : R) :
  (size i < 0 -> contains i v = false /\ surrounds i v = false)
  /\ (surrounds i v = true -> contains i v = true)
  /\ (contains i v = true -> 0 <= size i).
Proof.
  unfold size, surrounds. repeat split.
  - conditions. lra.
  - apply andb_false_iff.
    destruct (min i <? v) eqn:H1; [right | left; reflexivity]. conditions. lra.
  - rewrite andb_true_iff. intros [H1 H2]. conditions. lra.
  - intros Hc. conditions. lra.
Qed.

Lemma empty_interval_contains_nothing_witness :
  contains (mk_interval 1 (-1)) 0 = false /\ surrounds (mk_interval 1 (-1)) 0 = false.
Proof.
  apply (empty_interval_contains_nothing (mk_interval 1 (-1)) 0).
  unfold size; cbn [min max]. lra.
Defined.

(** ** hittable.h: [set_face_normal] *)

(** X3.  [set_face_normal] stores a normal that never points along the
    ray (its dot product with the direction is at most 0): the outward
    normal when the ray comes from outside ([front_face]), its opposite
    otherwise; the length is the outward normal's, and [p], [t] and [mat]
    are not touched. *)
Theorem set_face_normal_against_ray (rec : hit_record) (r : ray)
        (outward_normal : vec3) :
  let rec' := set_face_normal rec r outward_normal in
  dot (direction r) (normal rec') <= 0
  /\ (front_face rec' = true <-> dot (direction r) outward_normal < 0)
  /\ normal rec' = (if front_face rec' then outward_normal
                    else (- outward_normal)%vec3)
  /\ length_squared (normal rec') = length_squared outward_normal
  /\ p rec' = p rec /\ t rec' = t rec /\ mat rec' = mat rec.
Proof.
  cbn zeta. unfold set_face_normal. cbn [normal front_face p t mat].
  destruct (dot (direction r) outward_normal <? 0) eqn:Hd; conditions;
    repeat split; try (intros; conditions; lra); try discriminate;
    destruct outward_normal as [nx ny nz], (direction r) as [dx dy dz];
    components; lra.
Qed.

(** ** color.h *)

Lemma Int_part_monotone (v w : R) : v <= w -> (Int_part v <= Int_part w)%Z.
Proof.
  intros Hvw.
  destruct (base_Int_part v) as [Hv _], (base_Int_part w) as [_ Hw].
  apply Z.lt_succ_r, lt_IZR. rewrite succ_IZR. lra.
Qed.

Lemma linear_to_gamma_monotone (v w : R) :
  v <= w -> 0 <= linear_to_gamma v <= linear_to_gamma w.
Proof.
  intros Hvw. unfold linear_to_gamma.
  destruct (v >? 0) eqn:Hv, (w >? 0) eqn:Hw; conditions; try lra.
  - split; [apply sqrt_pos | apply sqrt_le_1; lra].
  - split; [lra | apply sqrt_pos].
Qed.

Lemma channel_byte_monotone (v w : R) :
  v <= w ->
  (double_to_int (256 * clamp intensity (linear_to_gamma v))
   <= double_to_int (256 * clamp intensity (linear_to_gamma w)))%Z.
Proof.
  intros Hvw.
  pose proof (linear_to_gamma_monotone v w Hvw) as [Hg0 Hg].
  assert (Hi : min intensity <= max intensity)
    by (unfold intensity; cbn [min max]; lra).
  pose proof (clamp_monotone intensity _ _ Hi Hg) as Hmono.
  pose proof (clamp_intensity_range (linear_to_gamma v)) as [Hv0 _].
  pose proof (clamp_intensity_range (linear_to_gamma w)) as [Hw0 _].
  unfold double_to_int.
  replace (0 <=? 256 * clamp intensity (linear_to_gamma v)) with true
    by (symmetry; conditions; lra).
  replace (0 <=? 256 * clamp intensity (linear_to_gamma w)) with true
    by (symmetry; conditions; lra).
  apply Int_part_monotone. lra.
Qed.

(** X4.  [write_color] keeps the order of brightness: a colour that is at
    least as large in a channel is written with a byte that is at least as
    large in that channel. *)
Theorem write_color_monotone (c c' : color) :
  (x c <= x c' -> (fst (fst (write_color c)) <= fst (fst (write_color c')))%Z)
  /\ (y c <= y c' -> (snd (fst (write_color c)) <= snd (fst (write_color c')))%Z)
  /\ (z c <= z c' -> (snd (write_color c) <= snd (write_color c'))%Z).
Proof.
  unfold write_color; cbn [fst snd].
  repeat split; apply channel_byte_monotone.
Qed.

Lemma write_color_monotone_witness :
  (fst (fst (write_color (mk_vec3 0.25 0 0)))
   <= fst (fst (write_color (mk_vec3 0.5 0 0))))%Z.
Proof.
  apply (write_color_monotone (mk_vec3 0.25 0 0) (mk_vec3 0.5 0 0)).
  cbn [x]. lra.
Defined.

(** X5.  [linear_to_gamma] undoes squaring: the gamma value of [v * v] is
    the absolute value of [v], and the square of the gamma value of [v] is
    [v] for a positive [v] and 0 otherwise. *)
Theorem linear_to_gamma_square (v : R) :
  linear_to_gamma (v * v) = Rabs v
  /\ linear_to_gamma v * linear_to_gamma v = Rmax 0 v.
Proof.
  unfold linear_to_gamma. split.
  - destruct (v * v >? 0) eqn:Hv; conditions.
    + rewrite <- sqrt_Rsqr_abs. reflexivity.
    + assert (v = 0) by nra. subst v. rewrite Rabs_R0. reflexivity.
  - destruct (v >? 0) eqn:Hv; conditions.
    + rewrite sqrt_sqrt by lra. rewrite Rmax_right; lra.
    + rewrite Rmax_left; lra.
Qed.

(** ** sphere.h: the point that [sphere::hit] records *)

(** The distance of a point of the ray to the centre, as the quadratic of
    [sphere::hit]. *)
Lemma sphere_quadratic (s : sphere) (r : ray) (k : R) :
  let oc := (center s - origin r)%vec3 in
  let a := length_squared (direction r) in
  let h := dot (direction r) oc in
  let c := length_squared oc - radius s * radius s in
  length_squared (at_ r k - center s) - radius s * radius s
  = a * k * k - 2 * h * k + c.
Proof.
  destruct s as [[cx cy cz] rad m], r as [[ox oy oz] [dx dy dz]].
  cbn [center radius]. components. ring.
Qed.

(** What a hit of a sphere tells: the root taken, of a discriminant that is
    not negative. *)
Lemma sphere_hit_true_inv (s : sphere) (r : ray) (ray_t : interval)
      (rec found : hit_record) :
  sphere_hit s r ray_t rec = (true, found) ->
  let oc := (center s - origin r)%vec3 in
  let a := length_squared (direction r) in
  let h := dot (direction r) oc in
  let c := length_squared oc - radius s * radius s in
  let discriminant := h * h - a * c in
  let root1 := (h - sqrt discriminant) / a in
  let root2 := (h + sqrt discriminant) / a in
  0 <= discriminant
  /\ exists root,
      found = sphere_record_hit s r root rec
      /\ min ray_t <= root <= max ray_t
      /\ (root = root1 \/ (root = root2 /\ contains ray_t root1 = false)).
Proof.
  intros Hhit oc a h c discriminant root1 root2. unfold sphere_hit in Hhit.
  fold oc a h c discriminant root1 root2 in Hhit.
  destruct (discriminant <? 0) eqn:Hd; [discriminate |]. conditions.
  split; [exact Hd |].
  destruct (contains ray_t root1) eqn:H1; cbn [negb] in Hhit.
  - injection Hhit as <-. exists root1. conditions. auto.
  - destruct (contains ray_t root2) eqn:H2; cbn [negb] in Hhit; [| discriminate].
    injection Hhit as <-. exists root2. split; [reflexivity |].
    split; [conditions; exact H2 | right; split; reflexivity].
Qed.

Lemma set_face_normal_dot (rec : hit_record) (r : ray) (outward_normal : vec3) :
  dot (direction r) (normal (set_face_normal rec r outward_normal)) <= 0.
Proof.
  unfold set_face_normal. cbn [normal].
  destruct (dot (direction r) outward_normal <? 0) eqn:Hd; conditions; [lra |].
  destruct outward_normal as [nx ny nz], (direction r) as [dx dy dz].
  components. lra.
Qed.

Lemma set_face_normal_length (rec : hit_record) (r : ray) (outward_normal : vec3) :
  length_squared (normal (set_face_normal rec r outward_normal))
  = length_squared outward_normal.
Proof.
  unfold set_face_normal. cbn [normal].
  destruct (dot (direction r) outward_normal <? 0); [reflexivity |].
  destruct outward_normal as [nx ny nz]. components. ring.
Qed.

Lemma length_squared_div (v : vec3) (k : R) :
  k <> 0 -> length_squared (v /: k) = length_squared v / (k * k).
Proof.
  intros Hk. destruct v as [vx vy vz]. components. field. exact Hk.
Qed.

(** X6.  When [sphere::hit] reports a hit of a ray whose direction is not
    zero, the recorded [t] lies in the interval, the recorded point is the
    point of the ray at [t] and lies on the sphere (at distance [radius]
    from the centre), and the material pointer is the sphere's; for a
    positive radius the recorded normal does not point along the ray and
    has length 1. *)
Theorem sphere_hit_on_sphere (s : sphere) (r : ray) (ray_t : interval)
        (rec found : hit_record) :
  sphere_hit s r ray_t rec = (true, found) ->
  0 < length_squared (direction r) ->
  min ray_t <= t found <= max ray_t
  /\ p found = at_ r (t found)
  /\ length_squared (p found - center s) = radius s * radius s
  /\ mat found = sphere_mat s
  /\ (0 < radius s ->
      dot (direction r) (normal found) <= 0
      /\ length_squared (normal found) = 1).
Proof.
  intros Hhit Ha.
  destruct (sphere_hit_true_inv s r ray_t rec found Hhit)
    as (Hd & root & -> & Hin & Hroot).
  destruct (half_coefficient_roots _ _ _ Hd Ha) as (Hq1 & Hq2 & _).
  assert (Hon : length_squared (at_ r root - center s) = radius s * radius s).
  { pose proof (sphere_quadratic s r root) as Hq. cbn zeta in Hq.
    destruct Hroot as [-> | [-> _]]; lra. }
  repeat split; try exact (proj1 Hin); try exact (proj2 Hin); try exact Hon.
  - apply set_face_normal_dot.
  - unfold sphere_record_hit, set_mat. cbn [normal].
    rewrite set_face_normal_length. unfold set_p, set_t. cbn [p t].
    rewrite length_squared_div by lra. rewrite Hon. field. lra.
Qed.

Lemma sphere_hit_on_sphere_witness :
  min (mk_interval 0.0001 1000) <= t (example_hit Material)
  <= max (mk_interval 0.0001 1000)
  /\ p (example_hit Material) = at_ example_ray (t (example_hit Material))
  /\ length_squared (p (example_hit Material) - center (example_sphere Material))
     = radius (example_sphere Material) * radius (example_sphere Material)
  /\ mat (example_hit Material) = sphere_mat (example_sphere Material)
  /\ (0 < radius (example_sphere Material) ->
      dot (direction example_ray) (normal (example_hit Material)) <= 0
      /\ length_squared (normal (example_hit Material)) = 1).
Proof.
  apply (sphere_hit_on_sphere (example_sphere Material) example_ray
                              (mk_interval 0.0001 1000) hit_record_default).
  - apply example_sphere_hit. cbn [min max]. lra.
  - unfold example_ray. components. lra.
Defined.

(** ** hittable_list.h: the nearest hit *)

(** A search on a shorter interval [[lo, c]] answers what the search on
    [[lo, hi]] answers, provided that answer lies below [c]; otherwise it
    finds nothing. *)
Definition hit_narrows {object_t : Type}
           (object_hit : object_t -> ray -> interval -> hit_record -> bool * hit_record)
           (o : object_t) (r : ray) : Prop :=
  forall lo hi c rec rec',
    c <= hi ->
    object_hit o r (mk_interval lo c) rec'
    = (let res := object_hit o r (mk_interval lo hi) rec in
       if fst res && (t (snd res) <=? c) then (true, snd res) else (false, rec')).

Lemma roots_ordered (a h sd : R) :
  0 <= a -> 0 <= sd -> (h - sd) / a <= (h + sd) / a.
Proof.
  intros Ha Hsd. unfold Rdiv. apply Rmult_le_compat_r; [| lra].
  destruct (Req_dec a 0) as [-> | Hne].
  - rewrite Rinv_0. lra.
  - apply Rlt_le, Rinv_0_lt_compat. lra.
Qed.

Lemma length_squared_nonneg (v : vec3) : 0 <= length_squared v.
Proof. destruct v as [vx vy vz]. components. nra. Qed.

Lemma sphere_hit_narrows (s : sphere) (r : ray) : hit_narrows sphere_hit s r.
Proof.
  intros lo hi c rec rec' Hc. cbn zeta. unfold sphere_hit.
  set (oc := (center s - origin r)%vec3).
  set (a := length_squared (direction r)).
  set (h := dot (direction r) oc).
  set (d := h * h - a * (length_squared oc - radius s * radius s)).
  pose proof (roots_ordered a h (sqrt d) (length_squared_nonneg _) (sqrt_pos d))
    as Hroots.
  destruct (d <? 0); [reflexivity |].
  set (root1 := (h - sqrt d) / a) in *. set (root2 := (h + sqrt d) / a) in *.
  destruct (contains (mk_interval lo hi) root1) eqn:H1,
           (contains (mk_interval lo hi) root2) eqn:H2,
           (contains (mk_interval lo c) root1) eqn:H3,
           (contains (mk_interval lo c) root2) eqn:H4;
    cbn [negb fst snd andb]; rewrite ?sphere_record_hit_t;
    conditions; cbn [min max] in *;
    try match goal with
        | |- context [?u <=? c] =>
          let E := fresh in destruct (u <=? c) eqn:E; conditions
        end;
    try reflexivity; exfalso; lra.
Qed.

Section hittable_list_nearest.
Context {object_t : Type}.
Variable object_hit : object_t -> ray -> interval -> hit_record -> bool * hit_record.
Variables (r : ray) (lo hi : R).

Local Abbreviation ray_t := (mk_interval lo hi).

Hypothesis members_narrow : forall o, hit_narrows object_hit o r.
Hypothesis members_in_interval :
  forall o i rec, fst (object_hit o r i rec) = true ->
                  min i <= t (snd (object_hit o r i rec)) <= max i.

(** What the loop knows after the members [tested]: the closest hit among
    them, or that none of them is hit. *)
Definition nearest_so_far (tested : list object_t) (st : hit_loop) : Prop :=
  closest_so_far st <= hi
  /\ (hit_anything st = true ->
      closest_so_far st = t (loop_rec st)
      /\ (exists o, In o tested
                    /\ forall rec, object_hit o r ray_t rec = (true, loop_rec st))
      /\ (forall o rec found,
             In o tested -> object_hit o r ray_t rec = (true, found) ->
             t (loop_rec st) <= t found))
  /\ (hit_anything st = false ->
      closest_so_far st = hi
      /\ forall o rec, In o tested -> fst (object_hit o r ray_t rec) = false).

(** A member's answer to the caller's interval does not depend on the
    record passed in. *)
Lemma member_hit_any_rec (o : object_t) (rec rec' found : hit_record) :
  object_hit o r ray_t rec = (true, found) ->
  object_hit o r ray_t rec' = (true, found).
Proof.
  intros Ho. rewrite (members_narrow o lo hi hi rec rec' (Rle_refl hi)).
  cbn zeta. rewrite Ho. cbn [fst snd andb].
  pose proof (members_in_interval o ray_t rec) as Hin.
  rewrite Ho in Hin. cbn [fst snd] in Hin. specialize (Hin eq_refl).
  replace (t found <=? hi) with true by (symmetry; conditions; apply Hin).
  reflexivity.
Qed.

Lemma member_miss_any_rec (o : object_t) (rec rec' : hit_record) :
  fst (object_hit o r ray_t rec) = false ->
  fst (object_hit o r ray_t rec') = false.
Proof.
  intros Ho. rewrite (members_narrow o lo hi hi rec rec' (Rle_refl hi)).
  cbn zeta. rewrite Ho. reflexivity.
Qed.

Lemma nearest_so_far_step (tested : list object_t) (st : hit_loop) (o : object_t) :
  nearest_so_far tested st ->
  nearest_so_far (tested ++ [o]) (hit_loop_body object_hit r ray_t st o).
Proof.
  intros (Hhi & Hhit & Hmiss). unfold hit_loop_body. cbn [min].
  rewrite (members_narrow o lo hi (closest_so_far st) (temp_rec st) (temp_rec st) Hhi).
  cbn zeta.
  pose proof (members_in_interval o ray_t (temp_rec st)) as Hin.
  destruct (object_hit o r ray_t (temp_rec st)) as [wide found] eqn:Ho.
  cbn [fst snd min max] in Hin |- *.
  destruct wide; cbn [andb].
  - specialize (Hin eq_refl).
    destruct (t found <=? closest_so_far st) eqn:Hnear; conditions.
    + (* the member is hit below the closest hit so far *)
      split; [cbn; lra |]. split; [| discriminate]. intros _. cbn.
      split; [reflexivity |]. split.
      * exists o. split; [apply in_or_app; right; left; reflexivity |].
        intros rec. apply (member_hit_any_rec o (temp_rec st)). exact Ho.
      * intros o' rec found' Hin' Ho'.
        apply in_app_or in Hin'. destruct Hin' as [Hin' | [-> | []]].
        -- destruct (hit_anything st) eqn:Hany.
           ++ destruct (Hhit eq_refl) as (Hc & _ & Hleast).
              specialize (Hleast o' rec found' Hin' Ho'). lra.
           ++ destruct (Hmiss eq_refl) as (_ & Hnone).
              specialize (Hnone o' rec Hin'). rewrite Ho' in Hnone. discriminate.
        -- rewrite (member_hit_any_rec o' (temp_rec st) rec found Ho) in Ho'.
           injection Ho' as <-. lra.
    + (* the member is hit beyond the closest hit so far *)
      destruct (hit_anything st) eqn:Hany.
      * destruct (Hhit eq_refl) as (Hc & (o0 & Hin0 & Ho0) & Hleast).
        split; [exact Hhi |]. split; [| cbn; discriminate].
        intros _. cbn. split; [exact Hc |]. split.
        -- exists o0. split; [apply in_or_app; left; exact Hin0 | exact Ho0].
        -- intros o' rec found' Hin' Ho'.
           apply in_app_or in Hin'. destruct Hin' as [Hin' | [-> | []]].
           ++ apply (Hleast o' rec found' Hin' Ho').
           ++ rewrite (member_hit_any_rec o' (temp_rec st) rec found Ho) in Ho'.
              injection Ho' as <-. lra.
      * destruct (Hmiss eq_refl) as (Hc & _). exfalso. lra.
  - (* the member is not hit *)
    split; [exact Hhi |]. cbn. split.
    + intros Hany. destruct (Hhit Hany) as (Hc & (o0 & Hin0 & Ho0) & Hleast).
      split; [exact Hc |]. split.
      * exists o0. split; [apply in_or_app; left; exact Hin0 | exact Ho0].
      * intros o' rec found' Hin' Ho'.
        apply in_app_or in Hin'. destruct Hin' as [Hin' | [-> | []]].
        -- apply (Hleast o' rec found' Hin' Ho').
        -- pose proof (member_miss_any_rec o' (temp_rec st) rec) as Hno.
           rewrite Ho, Ho' in Hno. cbn [fst] in Hno. discriminate (Hno eq_refl).
    + intros Hany. destruct (Hmiss Hany) as (Hc & Hnone).
      split; [exact Hc |]. intros o' rec Hin'.
      apply in_app_or in Hin'. destruct Hin' as [Hin' | [-> | []]].
      * apply Hnone, Hin'.
      * apply (member_miss_any_rec o' (temp_rec st)). rewrite Ho. reflexivity.
Qed.

Lemma nearest_so_far_loop (objects tested : list object_t) (st : hit_loop) :
  nearest_so_far tested st ->
  nearest_so_far (tested ++ objects)
                 (fold_left (hit_loop_body object_hit r ray_t) objects st).
Proof.
  revert tested st. induction objects as [| o objects IH]; intros tested st Hst.
  - rewrite app_nil_r. exact Hst.
  - cbn [fold_left]. replace (tested ++ o :: objects) with ((tested ++ [o]) ++ objects)
      by (rewrite <- app_assoc; reflexivity).
    apply IH, nearest_so_far_step, Hst.
Qed.

Lemma nearest_at_end (objects : list object_t) (rec : hit_record) :
  nearest_so_far objects
    (fold_left (hit_loop_body object_hit r ray_t) objects
               (mk_hit_loop hit_record_default false (max ray_t) rec)).
Proof.
  apply (nearest_so_far_loop objects []).
  split; [cbn; lra |]. split; [discriminate |]. intros _. cbn.
  split; [reflexivity |]. intros o rec' [].
Qed.
End hittable_list_nearest.

Section hittable_list_narrows.
Context {object_t : Type}.
Variable object_hit : object_t -> ray -> interval -> hit_record -> bool * hit_record.
Variables (r : ray) (lo hi c : R) (rec' : hit_record).

(** The loop on [[lo, hi]] (state [wide]) and the loop on [[lo, c]] (state
    [narrow]) after the same members. *)
Definition narrow_follows (wide narrow : hit_loop) : Prop :=
  closest_so_far narrow = Rmin (closest_so_far wide) c
  /\ closest_so_far wide <= hi
  /\ (hit_anything wide = true -> closest_so_far wide = t (loop_rec wide))
  /\ hit_anything narrow = hit_anything wide && (t (loop_rec wide) <=? c)
  /\ (hit_anything narrow = true -> loop_rec narrow = loop_rec wide)
  /\ (hit_anything narrow = false -> loop_rec narrow = rec').

Lemma narrow_follows_step (o : object_t) (wide narrow : hit_loop) :
  hit_narrows object_hit o r ->
  (forall i rec, fst (object_hit o r i rec) = true ->
                 min i <= t (snd (object_hit o r i rec)) <= max i) ->
  narrow_follows wide narrow ->
  narrow_follows (hit_loop_body object_hit r (mk_interval lo hi) wide o)
                 (hit_loop_body object_hit r (mk_interval lo c) narrow o).
Proof.
  intros Hnarrows Hinside (Hc2 & Hc1 & Hbest & Hany & Hsame & Hnone).
  unfold hit_loop_body. cbn [min].
  rewrite (Hnarrows lo (closest_so_far wide) (closest_so_far narrow)
                    (temp_rec wide) (temp_rec narrow))
    by (rewrite Hc2; apply Rmin_l).
  cbn zeta.
  pose proof (Hinside (mk_interval lo (closest_so_far wide)) (temp_rec wide)) as Hin.
  destruct (object_hit o r (mk_interval lo (closest_so_far wide)) (temp_rec wide))
    as [hit found].
  cbn [fst snd min max] in Hin |- *. destruct hit; cbn [andb].
  - specialize (Hin eq_refl).
    destruct (t found <=? closest_so_far narrow) eqn:Hnear; conditions;
      unfold narrow_follows; cbn.
    + assert (Hfc : t found <= c) by (rewrite Hc2 in Hnear; pose proof (Rmin_r (closest_so_far wide) c); lra).
      replace (t found <=? c) with true by (symmetry; conditions; exact Hfc).
      rewrite Rmin_left by exact Hfc.
      repeat split; try reflexivity; try lra; try discriminate.
    + assert (Hcc : c < closest_so_far wide /\ closest_so_far narrow = c).
      { rewrite Hc2 in Hnear |- *. unfold Rmin in *.
        destruct (Rle_dec (closest_so_far wide) c); split; lra. }
      destruct Hcc as [Hlt Hnc].
      assert (Hfc : c < t found) by lra.
      replace (t found <=? c) with false by (symmetry; conditions; exact Hfc).
      rewrite Rmin_right by lra.
      assert (Hno : hit_anything narrow = false).
      { rewrite Hany. destruct (hit_anything wide); [| reflexivity]. cbn [andb].
        conditions. rewrite <- (Hbest eq_refl). exact Hlt. }
      rewrite Hno. repeat split; try assumption; try lra; try discriminate.
      intros _. apply Hnone, Hno.
  - unfold narrow_follows; cbn. repeat split; assumption.
Qed.

Lemma narrow_follows_loop (objects : list object_t) (wide narrow : hit_loop) :
  Forall (fun o => hit_narrows object_hit o r) objects ->
  Forall (fun o => forall i rec,
              fst (object_hit o r i rec) = true ->
              min i <= t (snd (object_hit o r i rec)) <= max i) objects ->
  narrow_follows wide narrow ->
  narrow_follows (fold_left (hit_loop_body object_hit r (mk_interval lo hi)) objects wide)
                 (fold_left (hit_loop_body object_hit r (mk_interval lo c)) objects narrow).
Proof.
  intros Hnarrows. revert wide narrow.
  induction Hnarrows as [| o objects Ho _ IH]; intros wide narrow Hinside Hfollows.
  - exact Hfollows.
  - cbn [fold_left]. inversion Hinside as [| ? ? Hino Hinside']; subst.
    apply IH; [exact Hinside' |]. apply narrow_follows_step; assumption.
Qed.
End hittable_list_narrows.

Lemma hittable_list_hit_with_narrows {object_t : Type}
      (object_hit : object_t -> ray -> interval -> hit_record -> bool * hit_record)
      (objects : list object_t) (r : ray) :
  Forall (fun o => hit_narrows object_hit o r) objects ->
  Forall (fun o => forall i rec,
              fst (object_hit o r i rec) = true ->
              min i <= t (snd (object_hit o r i rec)) <= max i) objects ->
  hit_narrows (hittable_list_hit_with object_hit) objects r.
Proof.
  intros Hnarrows Hinside lo hi c rec rec' Hc. cbn zeta.
  unfold hittable_list_hit_with. cbn [fst snd min max].
  destruct (narrow_follows_loop object_hit r lo hi c rec' objects
              (mk_hit_loop hit_record_default false hi rec)
              (mk_hit_loop hit_record_default false c rec') Hnarrows Hinside)
    as (_ & _ & _ & Hany & Hsame & Hnone).
  { unfold narrow_follows; cbn. rewrite Rmin_right by exact Hc.
    repeat split; try reflexivity; try lra; discriminate. }
  rewrite <- Hany.
  destruct (hit_anything (fold_left _ objects (mk_hit_loop _ false c rec'))) eqn:Hn.
  - rewrite (Hsame eq_refl). reflexivity.
  - rewrite (Hnone eq_refl). reflexivity.
Qed.

Lemma hittable_hit_narrows (world : hittable) (r : ray) :
  hit_narrows hittable_hit world r.
Proof.
  induction world as [s | objects IH] using hittable_ind.
  - exact (sphere_hit_narrows s r).
  - intros lo hi c rec rec' Hc. cbn [hittable_hit].
    apply (hittable_list_hit_with_narrows hittable_hit objects r IH); [| exact Hc].
    apply Forall_forall. intros o _ i rec0. apply hittable_hit_in_interval.
Qed.

(** X8.  [hittable_list::hit] returns the nearest hit: when it returns
    true, the record it leaves is the record that one of its members gives
    for the caller's interval, and no member gives one with a smaller
    [t]. *)
Theorem hittable_list_hit_nearest (objects : list hittable) (r : ray)
        (ray_t : interval) (rec best : hit_record) :
  hittable_list_hit objects r ray_t rec = (true, best) ->
  (exists o, In o objects /\ forall rec', hittable_hit o r ray_t rec' = (true, best))
  /\ (forall o rec' found,
         In o objects -> hittable_hit o r ray_t rec' = (true, found) ->
         t best <= t found).
Proof.
  destruct ray_t as [lo hi]. intros Hhit.
  pose proof (nearest_at_end hittable_hit r lo hi
                (fun o => hittable_hit_narrows o r)
                (fun o => hittable_hit_in_interval o r) objects rec)
    as Hnear.
  unfold nearest_so_far in Hnear. cbn [max] in Hnear.
  destruct Hnear as (_ & Hfound & _).
  unfold hittable_list_hit, hittable_list_hit_with in Hhit.
  injection Hhit as Hany Hbest. cbn [max] in Hany, Hbest.
  destruct (Hfound Hany) as (_ & Hmember & Hleast).
  rewrite Hbest in Hmember, Hleast. split; assumption.
Qed.

Lemma hittable_list_hit_nearest_witness :
  (exists o,
      In o [Sphere (example_sphere Material)]
      /\ forall rec', hittable_hit o example_ray (mk_interval 0.0001 1000) rec'
                      = (true, example_hit Material))
  /\ (forall o rec' found,
         In o [Sphere (example_sphere Material)] ->
         hittable_hit o example_ray (mk_interval 0.0001 1000) rec' = (true, found) ->
         t (example_hit Material) <= t found).
Proof.
  apply (hittable_list_hit_nearest [Sphere (example_sphere Material)] example_ray
                                   (mk_interval 0.0001 1000) hit_record_default).
  apply example_alone. cbn [min max]. lra.
Defined.

(** X9.  [hittable_list::hit] returns true exactly when one of its members
    is hit on the caller's interval; a list without members is never
    hit. *)
Theorem hittable_list_hit_iff_member (objects : list hittable) (r : ray)
        (ray_t : interval) (rec : hit_record) :
  (fst (hittable_list_hit objects r ray_t rec) = true
   <-> exists o, In o objects /\ fst (hittable_hit o r ray_t rec) = true)
  /\ (objects = [] -> hittable_list_hit objects r ray_t rec = (false, rec)).
Proof.
  destruct ray_t as [lo hi]. split; [| intros ->; reflexivity].
  pose proof (nearest_at_end hittable_hit r lo hi
                (fun o => hittable_hit_narrows o r)
                (fun o => hittable_hit_in_interval o r) objects rec)
    as Hnear.
  unfold nearest_so_far in Hnear. cbn [max] in Hnear.
  destruct Hnear as (_ & Hfound & Hnone).
  unfold hittable_list_hit, hittable_list_hit_with. cbn [fst max] in *. split.
  - intros Hany. destruct (Hfound Hany) as (_ & (o & Hin & Ho) & _).
    exists o. split; [exact Hin |]. rewrite Ho. reflexivity.
  - intros (o & Hin & Ho).
    destruct (hit_anything (fold_left _ objects _)) eqn:Hany; [reflexivity |].
    destruct (Hnone eq_refl) as (_ & Hmiss).
    rewrite (Hmiss o rec Hin) in Ho. discriminate.
Qed.

Lemma hittable_list_hit_iff_member_witness :
  hittable_list_hit [] example_ray (mk_interval 0.0001 1000) hit_record_default
  = (false, hit_record_default).
Proof.
  apply (hittable_list_hit_iff_member [] example_ray (mk_interval 0.0001 1000)
                                      hit_record_default).
  reflexivity.
Defined.

(** ** material.h: directions, attenuation and random draws *)

(** Two unit vectors have a dot product of at least -1. *)
Lemma unit_dot_lower (u v : vec3) :
  length_squared u = 1 -> length_squared v = 1 -> -1 <= dot u v.
Proof.
  destruct u as [ux uy uz], v as [vx vy vz]. components. intros Hu Hv.
  pose proof (Rle_0_sqr (ux + vx)) as Hx.
  pose proof (Rle_0_sqr (uy + vy)) as Hy.
  pose proof (Rle_0_sqr (uz + vz)) as Hz.
  unfold Rsqr in Hx, Hy, Hz. lra.
Qed.

Lemma dot_add_l (u v n : vec3) : dot (u + v) n = dot u n + dot v n.
Proof. destruct u, v, n. components. ring. Qed.

(** X10.  A diffuse surface never scatters into itself: with a unit normal
    and a unit sample, the direction that [lambertian::scatter] gives has a
    dot product with the normal that is not negative; exactly one unit
    vector is drawn from the generator. *)
Theorem lambertian_scatter_outward `{helpers} (self : lambertian) (r_in : ray)
        (rec : hit_record) (attenuation : color) (scattered : ray) (g : rng) :
  length_squared (normal rec) = 1 ->
  length_squared (fst (random_unit_vector g)) = 1 ->
  let res := lambertian_scatter self r_in rec attenuation scattered g in
  0 <= dot (direction (scatter_scattered res)) (normal rec)
  /\ scatter_rng res = snd (random_unit_vector g).
Proof.
  intros Hn Hs res. subst res. unfold lambertian_scatter.
  destruct (random_unit_vector g) as [sample g']. cbn [fst snd] in *.
  cbn [scatter_scattered scatter_rng direction]. split; [| reflexivity].
  assert (Hnn : dot (normal rec) (normal rec) = 1) by exact Hn.
  destruct (near_zero (normal rec + sample)).
  - lra.
  - rewrite dot_add_l. pose proof (unit_dot_lower sample (normal rec) Hs Hn). lra.
Qed.

Lemma lambertian_scatter_outward_witness :
  let res := lambertian_scatter (H := example_helpers)
               (lambertian_ctor (mk_vec3 0.5 0.5 0.5)) example_ray
               (example_hit Material) vec3_default ray_default tt in
  0 <= dot (direction (scatter_scattered res)) (normal (example_hit Material))
  /\ scatter_rng res = tt.
Proof.
  apply (lambertian_scatter_outward (H := example_helpers)
           (lambertian_ctor (mk_vec3 0.5 0.5 0.5)) example_ray
           (example_hit Material) vec3_default ray_default tt).
  - cbn [normal example_hit]. components. lra.
  - cbn [random_unit_vector example_helpers fst]. components. lra.
Defined.

Lemma length_squared_add_scale (u v : vec3) (k : R) :
  length_squared ((u + k *: v) - u) = k * k * length_squared v.
Proof. destruct u, v. components. ring. Qed.

(** X11.  [metal::scatter] always sets the attenuation to the albedo and
    starts the scattered ray at the hit point; with a unit sample, the
    direction lies at distance [fuzz] from the normalised mirror
    direction; exactly one unit vector is drawn from the generator. *)
Theorem metal_scatter_fuzz_sphere `{helpers} (self : metal) (r_in : ray)
        (rec : hit_record) (attenuation : color) (scattered : ray) (g : rng) :
  length_squared (fst (random_unit_vector g)) = 1 ->
  let res := metal_scatter self r_in rec attenuation scattered g in
  let mirror := unit_vector (reflect (direction r_in) (normal rec)) in
  scatter_attenuation res = metal_albedo self
  /\ origin (scatter_scattered res) = p rec
  /\ length_squared (direction (scatter_scattered res) - mirror)
     = fuzz self * fuzz self
  /\ scatter_rng res = snd (random_unit_vector g).
Proof.
  intros Hs res mirror. subst res mirror. unfold metal_scatter.
  destruct (random_unit_vector g) as [sample g']. cbn [fst snd] in *.
  cbn [scatter_attenuation scatter_scattered scatter_rng origin direction].
  repeat split. rewrite length_squared_add_scale, Hs. ring.
Qed.

Lemma metal_scatter_fuzz_sphere_witness :
  let res := metal_scatter (H := example_helpers)
               (metal_ctor (mk_vec3 0.8 0.8 0.8) 0.3) example_ray
               (example_hit Material) vec3_default ray_default tt in
  let mirror :=
    unit_vector (reflect (direction example_ray) (normal (example_hit Material))) in
  scatter_attenuation res = metal_albedo (metal_ctor (mk_vec3 0.8 0.8 0.8) 0.3)
  /\ origin (scatter_scattered res) = p (example_hit Material)
  /\ length_squared (direction (scatter_scattered res) - mirror)
     = fuzz (metal_ctor (mk_vec3 0.8 0.8 0.8) 0.3)
       * fuzz (metal_ctor (mk_vec3 0.8 0.8 0.8) 0.3)
  /\ scatter_rng res = tt.
Proof.
  apply (metal_scatter_fuzz_sphere (H := example_helpers)
           (metal_ctor (mk_vec3 0.8 0.8 0.8) 0.3) example_ray
           (example_hit Material) vec3_default ray_default tt).
  cbn [random_unit_vector example_helpers fst]. components. lra.
Defined.



Lemma dot_unit_vector (v n : vec3) : dot (unit_vector v) n = dot v n / length v.
Proof. destruct v, n. components. unfold Rdiv. ring. Qed.




(** X13.  Schlick's approximation is a probability: for a refraction index
    that is not negative and a cosine between 0 and 1, [reflectance] lies
    between its value [r0] at cosine 1 and the value 1 that it takes at
    cosine 0 (grazing incidence). *)
Theorem reflectance_probability (cosine refraction_index : R) :
  0 <= refraction_index ->
  0 <= cosine <= 1 ->
  let r0 := (1 - refraction_index) / (1 + refraction_index)
            * ((1 - refraction_index) / (1 + refraction_index)) in
  0 <= r0 <= 1
  /\ r0 <= reflectance cosine refraction_index <= 1
  /\ reflectance 1 refraction_index = r0
  /\ reflectance 0 refraction_index = 1.
Proof.
  intros Hri Hcos r0. unfold reflectance. fold r0.
  set (q := (1 - refraction_index) / (1 + refraction_index)) in *.
  assert (Hq : -1 <= q <= 1).
  { unfold q. split.
    - apply Rmult_le_reg_r with (1 + refraction_index); [lra |].
      unfold Rdiv. rewrite Rmult_assoc, Rinv_l by lra. lra.
    - apply Rmult_le_reg_r with (1 + refraction_index); [lra |].
      unfold Rdiv. rewrite Rmult_assoc, Rinv_l by lra. lra. }
  assert (Hr0 : 0 <= r0 <= 1) by (unfold r0; nra).
  assert (Hw : 0 <= (1 - cosine) ^ 5 <= 1).
  { split; [apply pow_le; lra |].
    rewrite <- (pow1 5). apply pow_incr. lra. }
  repeat split; try lra; nra.
Qed.

Lemma reflectance_probability_witness :
  let r0 := (1 - 1.5) / (1 + 1.5) * ((1 - 1.5) / (1 + 1.5)) in
  0 <= r0 <= 1
  /\ r0 <= reflectance 0.5 1.5 <= 1
  /\ reflectance 1 1.5 = r0
  /\ reflectance 0 1.5 = 1.
Proof.
  apply (reflectance_probability 0.5 1.5); lra.
Defined.

(** X14.  Entering a denser medium never reflects totally: on a front face
    with a refraction index of at least 1, [dielectric::scatter] always
    makes its random draw, draws exactly once, and reflects exactly when the
    Schlick reflectance exceeds the draw; otherwise it refracts. *)
Theorem dielectric_entering_refracts `{helpers} (self : dielectric) (r_in : ray)
        (rec : hit_record) (attenuation : color) (scattered : ray) (g : rng) :
  front_face rec = true ->
  1 <= refraction_index self ->
  let res := dielectric_scatter self r_in rec attenuation scattered g in
  let ri := 1 / refraction_index self in
  let unit_direction := unit_vector (direction r_in) in
  let cos_theta := Rmin (dot (- unit_direction)%vec3 (normal rec)) 1 in
  scatter_rng res = snd (random_double g)
  /\ direction (scatter_scattered res)
     = (if reflectance cos_theta ri >? fst (random_double g)
        then reflect unit_direction (normal rec)
        else refract unit_direction (normal rec) ri).
Proof.
  intros Hfront Hindex res ri unit_direction cos_theta. subst res.
  unfold dielectric_scatter. rewrite Hfront. fold unit_direction.
  replace 1.0 with 1 by lra. fold ri cos_theta.
  assert (Hri : 0 < ri <= 1).
  { unfold ri. split.
    - apply Rdiv_lt_0_compat; lra.
    - apply Rmult_le_reg_r with (refraction_index self); [lra |].
      unfold Rdiv. rewrite Rmult_assoc, Rinv_l by lra. lra. }
  assert (Hsin : 0 <= sqrt (1 - cos_theta * cos_theta) <= 1).
  { split; [apply sqrt_pos |].
    rewrite <- sqrt_1 at 2. apply sqrt_le_1_alt. nra. }
  replace (ri * sqrt (1 - cos_theta * cos_theta) >? 1) with false
    by (symmetry; conditions; nra).
  destruct (random_double g) as [sample g']. cbn [fst snd].
  split; reflexivity.
Qed.

Lemma dielectric_entering_refracts_witness :
  let res := dielectric_scatter (H := example_helpers) (dielectric_ctor 1.5)
               example_ray (example_hit Material) vec3_default ray_default tt in
  let ri := 1 / refraction_index (dielectric_ctor 1.5) in
  let unit_direction := unit_vector (direction example_ray) in
  let cos_theta :=
    Rmin (dot (- unit_direction)%vec3 (normal (example_hit Material))) 1 in
  scatter_rng res = snd (random_double (helpers := example_helpers) tt)
  /\ direction (scatter_scattered res)
     = (if reflectance cos_theta ri
           >? fst (random_double (helpers := example_helpers) tt)
        then reflect unit_direction (normal (example_hit Material))
        else refract (helpers := example_helpers) unit_direction
                     (normal (example_hit Material)) ri).
Proof.
  apply (dielectric_entering_refracts (H := example_helpers) (dielectric_ctor 1.5)
           example_ray (example_hit Material) vec3_default ray_default tt).
  - reflexivity.
  - cbn [refraction_index dielectric_ctor]. lra.
Defined.

(** ** camera.h: what [ray_color] returns *)

Lemma hit_loop_material {object_t : Type}
      (object_hit : object_t -> ray -> interval -> hit_record -> bool * hit_record)
      (r : ray) (ray_t : interval) (known : list (option material))
      (objects : list object_t) (st : hit_loop) :
  Forall (fun o => forall i rec found,
              object_hit o r i rec = (true, found) -> In (mat found) known) objects ->
  (hit_anything st = true -> In (mat (loop_rec st)) known) ->
  let st' := fold_left (hit_loop_body object_hit r ray_t) objects st in
  hit_anything st' = true -> In (mat (loop_rec st')) known.
Proof.
  intros Hobjects. revert st.
  induction Hobjects as [| o objects Ho _ IH]; intros st Hst; cbn.
  - exact Hst.
  - apply IH. unfold hit_loop_body.
    specialize (Ho (mk_interval (min ray_t) (closest_so_far st)) (temp_rec st)).
    destruct (object_hit o r _ (temp_rec st)) as [[] found]; cbn.
    + intros _. apply Ho. reflexivity.
    + exact Hst.
Qed.

(** A hit records the material pointer of one of the spheres of the
    scene. *)
Lemma hittable_hit_material (world : hittable) (r : ray) :
  forall (ray_t : interval) (rec found : hit_record),
    hittable_hit world r ray_t rec = (true, found) ->
    In (mat found) (materials_of world).
Proof.
  induction world as [s | objects IH] using hittable_ind;
    intros ray_t rec found Hhit; cbn [hittable_hit materials_of] in *.
  - destruct (sphere_hit_true_inv s r ray_t rec found Hhit) as (_ & root & -> & _).
    left. reflexivity.
  - unfold hittable_list_hit_with in Hhit. injection Hhit as Hany Hrec.
    rewrite <- Hrec.
    apply (hit_loop_material hittable_hit r ray_t (flat_map materials_of objects)
                             objects); [| discriminate | exact Hany].
    rewrite Forall_forall in IH |- *. intros o Hin i rec0 found0 Ho.
    apply in_flat_map. exists o. split; [exact Hin |].
    apply (IH o Hin i rec0 found0 Ho).
Qed.

(** A scene none of whose spheres holds a null material pointer. *)
Definition materials_not_null (world : hittable) : Prop :=
  Forall (fun pointer : option material => pointer <> None) (materials_of world).


(** The example sphere built with a null material pointer is hit like the
    example sphere, and the record holds the null pointer. *)
Lemma example_null_sphere_hit (ray_t : interval) (rec : hit_record) :
  min ray_t <= 0.5 <= max ray_t ->
  sphere_hit example_null_sphere example_ray ray_t rec
  = (true, mk_hit_record (mk_vec3 0 0 (-0.5)) (mk_vec3 0 0 1) None 0.5 true).
Proof.
  intros Hin.
  unfold sphere_hit, example_null_sphere, example_ray, sphere_ctor.
  cbn [center radius sphere_mat]. components.
  rewrite Rmax_right by lra.
  match goal with |- context [sqrt ?d] => replace d with (0.5 * 0.5) by lra end.
  rewrite sqrt_square by lra.
  replace (0.5 * 0.5 <? 0) with false by (symmetry; conditions; lra).
  match goal with |- context [contains ray_t (_ / ?e)] =>
    replace e with 1 by lra end.
  match goal with |- context [contains ray_t ?e] =>
    replace e with 0.5 by lra end.
  replace (contains ray_t 0.5) with true by (symmetry; conditions; exact Hin).
  cbn [negb]. f_equal.
  unfold sphere_record_hit, set_face_normal, set_mat, set_p, set_t.
  cbn [p normal mat t front_face center radius sphere_mat]. components.
  match goal with |- context [?e <? 0] =>
    replace (e <? 0) with true by (symmetry; conditions; lra) end.
  f_equal; f_equal; lra.
Qed.

(** Following the null pointer: the colour of the example ray on that sphere
    is not computed. *)
Lemma ray_color_null_material :
  camera.ray_color (H := example_helpers) example_ray 50 (Sphere example_null_sphere) tt
  = None.
Proof.
  rewrite ray_color_equation. cbn [Z.leb Z.compare hittable_hit].
  rewrite example_null_sphere_hit
    by (cbn [min max infinity example_helpers]; lra).
  reflexivity.
Qed.



(** ** camera.h: [initialize] *)

(** X17.  [initialize] leaves the public configuration as it is and reads
    nothing else: every public member of the initialised camera is the one
    of the camera before; two cameras of the same configuration are
    initialised alike, whatever their private members held; and
    initialising twice gives what initialising once gives. *)
Theorem initialize_idempotent `{helpers} `{int_conversion} (self other : camera.t) :
  (camera.aspect_ratio (camera.initialize self) = camera.aspect_ratio self
   /\ camera.image_width (camera.initialize self) = camera.image_width self
   /\ camera.samples_per_pixel (camera.initialize self) = camera.samples_per_pixel self
   /\ camera.max_depth (camera.initialize self) = camera.max_depth self
   /\ camera.vfov (camera.initialize self) = camera.vfov self
   /\ camera.lookfrom (camera.initialize self) = camera.lookfrom self
   /\ camera.lookat (camera.initialize self) = camera.lookat self
   /\ camera.vup (camera.initialize self) = camera.vup self
   /\ camera.defocus_angle (camera.initialize self) = camera.defocus_angle self
   /\ camera.focus_dist (camera.initialize self) = camera.focus_dist self)
  /\ camera.initialize (camera.initialize self) = camera.initialize self
  /\ (camera.aspect_ratio other = camera.aspect_ratio self ->
      camera.image_width other = camera.image_width self ->
      camera.samples_per_pixel other = camera.samples_per_pixel self ->
      camera.max_depth other = camera.max_depth self ->
      camera.vfov other = camera.vfov self ->
      camera.lookfrom other = camera.lookfrom self ->
      camera.lookat other = camera.lookat self ->
      camera.vup other = camera.vup self ->
      camera.defocus_angle other = camera.defocus_angle self ->
      camera.focus_dist other = camera.focus_dist self ->
      camera.initialize other = camera.initialize self).
Proof.
  split; [repeat split |]. split; [reflexivity |].
  intros H1 H2 H3 H4 H5 H6 H7 H8 H9 H10. unfold camera.initialize.
  rewrite H1, H2, H3, H4, H5, H6, H7, H8, H9, H10. reflexivity.
Qed.

Lemma initialize_idempotent_witness :
  camera.initialize (H := example_helpers) (C := example_int_conversion)
    (camera.initialize (H := example_helpers) (C := example_int_conversion)
                       example_camera)
  = camera.initialize (H := example_helpers) (C := example_int_conversion)
                      example_camera.
Proof.
  refine (proj2 (proj2 (initialize_idempotent
                   (H := example_helpers) (H0 := example_int_conversion)
                   example_camera
                   (camera.initialize (H := example_helpers)
                                      (C := example_int_conversion) example_camera)))
                eq_refl eq_refl eq_refl eq_refl eq_refl eq_refl eq_refl eq_refl
                eq_refl eq_refl).
Defined.

Lemma initialize_image_height_pos `{helpers} `{int_conversion} (self : camera.t) :
  (1 <= camera.image_height (camera.initialize self))%Z.
Proof. rewrite initialize_image_height. lia. Qed.

(** X18.  The pixel grid is centred on the view axis and spans the
    viewport: for a width that is not zero, the middle of the grid that
    [initialize] lays out is the point at [focus_dist] in front of the
    camera, and [image_width] steps of [pixel_delta_u] (and [image_height]
    steps of [pixel_delta_v]) cross the viewport, whose height is
    [2 tan(theta / 2) focus_dist]. *)
Theorem initialize_grid_centred `{helpers} `{int_conversion} (self : camera.t) :
  camera.image_width self <> 0%Z ->
  let cam := camera.initialize self in
  let wd := int_to_double (camera.image_width cam) in
  let ht := int_to_double (camera.image_height cam) in
  let viewport_height :=
    2 * tan (degrees_to_radians (camera.vfov self) / 2) * camera.focus_dist self in
  (camera.pixel00_loc cam
   + ((wd - 1) / 2) *: camera.pixel_delta_u cam
   + ((ht - 1) / 2) *: camera.pixel_delta_v cam)%vec3
  = (camera.lookfrom self - camera.focus_dist self *: camera.w cam)%vec3
  /\ (wd *: camera.pixel_delta_u cam)%vec3
     = ((viewport_height * (wd / ht)) *: camera.u cam)%vec3
  /\ (ht *: camera.pixel_delta_v cam)%vec3
     = (viewport_height *: (- camera.v cam))%vec3.
Proof.
  intros Hw cam wd ht viewport_height.
  assert (Hwd : wd <> 0) by (apply not_0_IZR; exact Hw).
  assert (Hht : ht <> 0).
  { apply not_0_IZR. pose proof (initialize_image_height_pos self) as Hpos.
    fold cam in Hpos. lia. }
  subst cam. cbn [camera.initialize camera.pixel00_loc camera.pixel_delta_u
                  camera.pixel_delta_v camera.u camera.v camera.w
                  camera.image_width camera.image_height] in *.
  change (int_to_double (camera.image_width self)) with wd.
  change (int_to_double
            (if (int_of_double (wd / camera.aspect_ratio self) <? 1)%Z
             then 1%Z else int_of_double (wd / camera.aspect_ratio self)))
    with ht.
  fold viewport_height.
  clearbody wd ht viewport_height.
  generalize (unit_vector (camera.lookfrom self - camera.lookat self)). intros w.
  generalize (unit_vector (cross (camera.vup self) w)). intros u.
  generalize (cross w u). intros v.
  destruct (camera.lookfrom self) as [fx fy fz], w as [wx wy wz],
           u as [ux uy uz], v as [vx vy vz].
  replace 0.5 with (1 / 2) by lra.
  repeat split; apply vec3_eq;
    unfold vec3_add, vec3_sub, vec3_scale, vec3_div, vec3_neg; cbn [x y z];
    field; auto.
Qed.

Lemma initialize_grid_centred_witness :
  let cam := camera.initialize (H := example_helpers) (C := example_int_conversion)
                               example_camera in
  let wd := int_to_double (camera.image_width cam) in
  let ht := int_to_double (camera.image_height cam) in
  (camera.pixel00_loc cam
   + ((wd - 1) / 2) *: camera.pixel_delta_u cam
   + ((ht - 1) / 2) *: camera.pixel_delta_v cam)%vec3
  = (camera.lookfrom example_camera
     - camera.focus_dist example_camera *: camera.w cam)%vec3.
Proof.
  refine (proj1 (initialize_grid_centred (H := example_helpers)
                   (H0 := example_int_conversion) example_camera _)).
  cbn [camera.image_width example_camera]. lia.
Defined.

Lemma dot_cross_l (a b : vec3) : dot (cross a b) a = 0.
Proof. destruct a, b. components. ring. Qed.

Lemma dot_cross_r (a b : vec3) : dot (cross a b) b = 0.
Proof. destruct a, b. components. ring. Qed.

Lemma length_squared_cross (a b : vec3) :
  length_squared (cross a b)
  = length_squared a * length_squared b - dot a b * dot a b.
Proof. destruct a, b. components. ring. Qed.

Lemma length_squared_unit_vector (v : vec3) :
  0 < length_squared v -> length_squared (unit_vector v) = 1.
Proof.
  intros Hv. unfold unit_vector.
  assert (Hl : 0 < length v) by (apply sqrt_lt_R0; exact Hv).
  rewrite length_squared_div by lra.
  unfold length. rewrite sqrt_sqrt by lra. field. lra.
Qed.

Lemma dot_comm (a b : vec3) : dot a b = dot b a.
Proof. destruct a, b. components. ring. Qed.

(** X19.  The camera frame is orthonormal: when the camera does not look
    from the point it looks at, and the up vector is not along the view
    axis, the vectors [u], [v], [w] that [initialize] stores have length 1
    and are perpendicular to one another. *)
Theorem initialize_basis_orthonormal `{helpers} `{int_conversion} (self : camera.t) :
  0 < length_squared (camera.lookfrom self - camera.lookat self) ->
  0 < length_squared
        (cross (camera.vup self)
               (unit_vector (camera.lookfrom self - camera.lookat self))) ->
  let cam := camera.initialize self in
  length_squared (camera.u cam) = 1
  /\ length_squared (camera.v cam) = 1
  /\ length_squared (camera.w cam) = 1
  /\ dot (camera.u cam) (camera.v cam) = 0
  /\ dot (camera.u cam) (camera.w cam) = 0
  /\ dot (camera.v cam) (camera.w cam) = 0.
Proof.
  intros Hlook Hup cam. subst cam.
  cbn [camera.initialize camera.u camera.v camera.w].
  set (w := unit_vector (camera.lookfrom self - camera.lookat self)) in *.
  set (u := unit_vector (cross (camera.vup self) w)).
  assert (Hw : length_squared w = 1) by (apply length_squared_unit_vector, Hlook).
  assert (Hu : length_squared u = 1) by (apply length_squared_unit_vector, Hup).
  assert (Huw : dot u w = 0).
  { unfold u. rewrite dot_unit_vector, dot_cross_r. unfold Rdiv. ring. }
  repeat split; try assumption.
  - rewrite length_squared_cross, Hw, Hu, (dot_comm w u), Huw. ring.
  - rewrite dot_comm. apply dot_cross_r.
  - apply dot_cross_l.
Qed.

Lemma initialize_basis_orthonormal_witness :
  let cam := camera.initialize (H := example_helpers) (C := example_int_conversion)
                               example_camera in
  length_squared (camera.u cam) = 1
  /\ length_squared (camera.v cam) = 1
  /\ length_squared (camera.w cam) = 1
  /\ dot (camera.u cam) (camera.v cam) = 0
  /\ dot (camera.u cam) (camera.w cam) = 0
  /\ dot (camera.v cam) (camera.w cam) = 0.
Proof.
  apply (initialize_basis_orthonormal (H := example_helpers)
           (H0 := example_int_conversion) example_camera).
  - cbn [camera.lookfrom camera.lookat example_camera]. components. lra.
  - cbn [camera.lookfrom camera.lookat camera.vup example_camera]. components.
    match goal with |- context [sqrt ?e] => replace e with 1 by lra end.
    rewrite sqrt_1. unfold Rdiv. rewrite Rinv_1. lra.
Defined.

(** ** camera.h: [get_ray] and [render] *)

(** A lens that is a single point: every sample of the disk is its
    centre. *)
Definition example_lens : @lens_helpers example_helpers := {|
  random_in_unit_disk := fun g => (mk_vec3 0 0 0, g)
|}.

Lemma at_one (o target : vec3) : at_ (mk_ray o (target - o)) 1 = target.
Proof. destruct o, target. components. apply vec3_eq; cbn [x y z]; ring. Qed.

(** X20.  Every ray of [get_ray] passes, at parameter 1, through a point of
    the cell of its pixel: the point [pixel00_loc + (i + ox) pixel_delta_u +
    (j + oy) pixel_delta_v] with offsets [ox], [oy] in [[-0.5, 0.5)], also
    when the ray starts on the defocus disk; draws of [random_double] lie
    in [[0, 1)].  Without defocus ([defocus_angle <= 0]) the ray starts at
    the camera centre and only the two draws of the offset are made. *)
Theorem get_ray_through_pixel `{H : helpers} `{L : @lens_helpers H}
        (self : camera.t) (i j : Z) (g : rng) :
  (forall g0, 0 <= fst (random_double g0) < 1) ->
  let res := camera.get_ray self i j g in
  exists ox oy,
    -0.5 <= ox < 0.5 /\ -0.5 <= oy < 0.5
    /\ at_ (fst res) 1
       = (camera.pixel00_loc self
          + (int_to_double i + ox) *: camera.pixel_delta_u self
          + (int_to_double j + oy) *: camera.pixel_delta_v self)%vec3
    /\ (camera.defocus_angle self <= 0 ->
        origin (fst res) = camera.center self
        /\ snd res = snd (random_double (snd (random_double g)))).
Proof.
  intros Hdraw res. subst res. unfold camera.get_ray, camera.sample_square.
  pose proof (Hdraw g) as Ha.
  destruct (random_double g) as [a g1]. cbn [fst snd] in *.
  pose proof (Hdraw g1) as Hb.
  destruct (random_double g1) as [b g2]. cbn [fst snd x y] in *.
  exists (a - 0.5), (b - 0.5). split; [lra |]. split; [lra |].
  destruct (camera.defocus_angle self <=? 0) eqn:Hangle; conditions.
  - cbn [fst snd]. split; [apply at_one |]. intros _. split; reflexivity.
  - destruct (camera.defocus_disk_sample self g2) as [lens g3]. cbn [fst snd].
    split; [apply at_one |]. intros Hno. exfalso. lra.
Qed.

Lemma get_ray_through_pixel_witness :
  exists ox oy,
    -0.5 <= ox < 0.5 /\ -0.5 <= oy < 0.5
    /\ at_ (fst (camera.get_ray (H := example_helpers) (L := example_lens)
                   example_camera 3 4 tt)) 1
       = (camera.pixel00_loc example_camera
          + (int_to_double 3 + ox) *: camera.pixel_delta_u example_camera
          + (int_to_double 4 + oy) *: camera.pixel_delta_v example_camera)%vec3
    /\ (camera.defocus_angle example_camera <= 0 ->
        origin (fst (camera.get_ray (H := example_helpers) (L := example_lens)
                       example_camera 3 4 tt))
        = camera.center example_camera
        /\ snd (camera.get_ray (H := example_helpers) (L := example_lens)
                  example_camera 3 4 tt)
           = snd (random_double (helpers := example_helpers)
                    (snd (random_double (helpers := example_helpers) tt)))).
Proof.
  apply (get_ray_through_pixel (H := example_helpers) (L := example_lens)
           example_camera 3 4 tt).
  intros g0. cbn [random_double example_helpers fst]. lra.
Defined.



Section render_output.
Context `{H : helpers} `{L : @lens_helpers H}.
Variables (self : camera.t) (world : hittable).
Hypothesis world_materials : materials_not_null world.




End render_output.



(** ** sphere.h and hittable_list.h: further facts of [hit] *)

Lemma sphere_hit_point (s : sphere) (r : ray) (ray_t : interval)
      (rec found : hit_record) :
  sphere_hit s r ray_t rec = (true, found) ->
  0 < length_squared (direction r) ->
  length_squared (p found - center s) = radius s * radius s.
Proof.
  intros Hhit Ha.
  destruct (sphere_hit_true_inv s r ray_t rec found Hhit)
    as (Hd & root & -> & Hin & Hroot).
  destruct (half_coefficient_roots _ _ _ Hd Ha) as (Hq1 & Hq2 & _).
  pose proof (sphere_quadratic s r root) as Hq. cbn zeta in Hq.
  change (p (sphere_record_hit s r root rec)) with (at_ r root).
  destruct Hroot as [-> | [-> _]]; lra.
Qed.

Lemma length_squared_zero (v : vec3) : length_squared v = 0 -> v = mk_vec3 0 0 0.
Proof.
  destruct v as [vx vy vz]. components. intros Hv.
  pose proof (Rle_0_sqr vx) as Hx. pose proof (Rle_0_sqr vy) as Hy.
  pose proof (Rle_0_sqr vz) as Hz. unfold Rsqr in Hx, Hy, Hz.
  assert (Hx0 : vx * vx = 0) by lra. assert (Hy0 : vy * vy = 0) by lra.
  assert (Hz0 : vz * vz = 0) by lra.
  apply Rsqr_0_uniq in Hx0, Hy0, Hz0. subst. reflexivity.
Qed.

(** The sphere built at (0,0,-1) with the radius -2. *)
Definition example_point_sphere (m : material) : sphere :=
  sphere_ctor (mk_vec3 0 0 (-1)) (-2) (Some m).

Lemma example_point_sphere_hit (m : material) (rec : hit_record) :
  sphere_hit (example_point_sphere m) example_ray (mk_interval 0.0001 1000) rec
  = (true, sphere_record_hit (example_point_sphere m) example_ray 1 rec).
Proof.
  unfold sphere_hit, example_point_sphere, example_ray, sphere_ctor.
  cbn [center radius sphere_mat]. components.
  rewrite Rmax_left by lra.
  match goal with |- context [sqrt ?d] => replace d with 0 by lra end.
  rewrite sqrt_0.
  replace (0 <? 0) with false by (symmetry; conditions; lra).
  match goal with |- context [contains _ (_ / ?e)] => replace e with 1 by lra end.
  match goal with |- context [contains ?i ?e] =>
    replace (contains i e) with true by (symmetry; conditions; cbn [min max]; lra);
    replace e with 1 by lra
  end.
  reflexivity.
Qed.

(** X22.  A sphere built with a radius that is not positive is a point: the
    constructor stores the radius 0, and a ray (of a direction that is not
    zero) that [hit] reports as hitting it is recorded at the centre. *)
Theorem point_sphere_hit_at_centre (c : point3) (rad : R) (m : option material)
        (r : ray) (ray_t : interval) (rec found : hit_record) :
  rad <= 0 ->
  0 < length_squared (direction r) ->
  sphere_hit (sphere_ctor c rad m) r ray_t rec = (true, found) ->
  radius (sphere_ctor c rad m) = 0 /\ p found = c.
Proof.
  intros Hrad Ha Hhit.
  assert (Hzero : radius (sphere_ctor c rad m) = 0)
    by (unfold sphere_ctor; cbn [radius]; apply Rmax_left; exact Hrad).
  split; [exact Hzero |].
  pose proof (sphere_hit_point _ r ray_t rec found Hhit Ha) as Hon.
  rewrite Hzero in Hon. replace (0 * 0) with 0 in Hon by ring.
  apply length_squared_zero in Hon. cbn [center sphere_ctor] in Hon.
  destruct (p found) as [px py pz], c as [cx cy cz].
  unfold vec3_sub in Hon. cbn [x y z] in Hon. injection Hon as Hx Hy Hz.
  apply vec3_eq; cbn [x y z]; lra.
Qed.

Lemma point_sphere_hit_at_centre_witness :
  radius (sphere_ctor (mk_vec3 0 0 (-1)) (-2) (Some Material)) = 0
  /\ p (sphere_record_hit (example_point_sphere Material) example_ray 1
                          hit_record_default)
     = mk_vec3 0 0 (-1).
Proof.
  apply (point_sphere_hit_at_centre (mk_vec3 0 0 (-1)) (-2) (Some Material)
           example_ray
           (mk_interval 0.0001 1000) hit_record_default).
  - lra.
  - unfold example_ray. components. lra.
  - apply example_point_sphere_hit.
Defined.

(** X23.  Shortening the search does not change what is found below the new
    bound: for every hittable, sphere or list of any nesting, the search on
    [[lo, c]] with [c <= hi] returns the hit that the search on [[lo, hi]]
    returns when its [t] is at most [c], and returns false, leaving the
    record alone, otherwise. *)
Theorem hittable_hit_shorter_interval (world : hittable) (r : ray)
        (lo hi c : R) (rec rec' : hit_record) :
  c <= hi ->
  hittable_hit world r (mk_interval lo c) rec'
  = (if fst (hittable_hit world r (mk_interval lo hi) rec)
        && (t (snd (hittable_hit world r (mk_interval lo hi) rec)) <=? c)
     then (true, snd (hittable_hit world r (mk_interval lo hi) rec))
     else (false, rec')).
Proof.
  intros Hc. exact (hittable_hit_narrows world r lo hi c rec rec' Hc).
Qed.

Lemma hittable_hit_shorter_interval_witness :
  hittable_hit (Sphere (example_sphere Material)) example_ray
               (mk_interval 0.0001 0.25) hit_record_default
  = (false, hit_record_default).
Proof.
  rewrite (hittable_hit_shorter_interval (Sphere (example_sphere Material))
             example_ray 0.0001 1000 0.25 hit_record_default hit_record_default)
    by lra.
  cbn [hittable_hit].
  rewrite example_sphere_hit by (cbn [min max]; lra).
  cbn [fst snd t example_hit andb].
  replace (0.5 <=? 0.25) with false by (symmetry; conditions; lra).
  reflexivity.
Defined.

(** X24.  What every hit guarantees, for a sphere or a list of any nesting:
    the recorded [t] lies in the search interval, the recorded material is
    the pointer that a sphere of the scene holds (so it is null only if a
    sphere of the scene was built with a null material), and the record
    does not depend on what the caller's record held before the call. *)
Theorem hittable_hit_record (world : hittable) (r : ray) (ray_t : interval)
        (rec rec' found : hit_record) :
  hittable_hit world r ray_t rec = (true, found) ->
  min ray_t <= t found <= max ray_t
  /\ In (mat found) (materials_of world)
  /\ (materials_not_null world -> mat found <> None)
  /\ hittable_hit world r ray_t rec' = (true, found).
Proof.
  intros Hhit.
  pose proof (hittable_hit_material world r ray_t rec found Hhit) as Hmat.
  split; [| split; [exact Hmat | split]].
  - pose proof (hittable_hit_in_interval world r ray_t rec) as Hin.
    rewrite Hhit in Hin. apply Hin. reflexivity.
  - intros Hworld. unfold materials_not_null in Hworld.
    rewrite Forall_forall in Hworld. apply Hworld. exact Hmat.
  - rewrite (hittable_hit_overwrites world r ray_t rec rec'); [exact Hhit |].
    rewrite Hhit. reflexivity.
Qed.

Lemma hittable_hit_record_witness :
  min (mk_interval 0.0001 1000) <= t (example_hit Material)
  <= max (mk_interval 0.0001 1000)
  /\ In (mat (example_hit Material))
        (materials_of (HittableList [Sphere (example_sphere Material)]))
  /\ (materials_not_null (HittableList [Sphere (example_sphere Material)]) ->
      mat (example_hit Material) <> None)
  /\ hittable_hit (HittableList [Sphere (example_sphere Material)]) example_ray
                  (mk_interval 0.0001 1000) (example_hit Material)
     = (true, example_hit Material).
Proof.
  apply (hittable_hit_record (HittableList [Sphere (example_sphere Material)])
           example_ray (mk_interval 0.0001 1000) hit_record_default).
  apply example_alone. cbn [min max]. lra.
Defined.
